(** * decay-gen: the decay-chain solver of PyNE's static decayer generator

    A shallow embedding of [src/decay-gen.py]: the data-correction layer
    ([_branch_ratio], [_decay_children]), the chain enumerator
    ([genchains]), the Bateman coefficient solver ([k_a]) and the
    expression synthesizer ([kexpexpr], [chainexpr]).

    Numbers are IEEE binary64 values (Python floats and numpy float64
    arrays), modelled by Rocq's primitive floats; nuclide identities are
    Python integers, modelled by [Z]; tuples and numpy vectors are lists;
    Python sets and dicts are [gset] and [gmap]. *)

From Stdlib Require Import ZArith List Bool Lia PrimFloat Ascii.
From Stdlib Require Import Rdefinitions Raxioms RIneq Rpower Rtrigo_def Lra
  RealField.
From stdpp Require Import gmap strings pretty sorting.

Set Warnings "-inexact-float".
Local Open Scope Z_scope.

(** ** Python outcomes *)

(** The exceptions the modelled functions can raise. [RecursionError] is
    what CPython raises when the call stack is exhausted. *)
Inductive exn : Set := IndexError | ZeroDivisionError | RecursionError.

(** A Python call either returns a value or raises. *)
Inductive py (A : Type) : Type :=
  | Ret (a : A)
  | Raise (e : exn).
Arguments Ret {A} a.
Arguments Raise {A} e.

#[global] Instance py_ret : MRet py := @Ret.
#[global] Instance py_bind : MBind py :=
  λ A B f m, match m with Ret a => f a | Raise e => Raise e end.

(** ** The nuclear-data provider ([pyne.data])

    The functions imported from [pyne.data]; they are not part of this
    repository, so every definition below takes them as a parameter. *)
Module data.
Record provider : Type := Provider {
  half_life : Z → float;
  decay_const : Z → float;
  branch_ratio : Z → Z → float;
  decay_children : Z → gset Z;
  fpyield : Z → Z → float
}.
End data.

Abbreviation provider := data.provider.

(** ** Data-correction layer *)

(** The [special_cases] dict of [_branch_ratio]. *)
Definition branch_ratio_special_cases : gmap (Z * Z) float :=
  list_to_map [
    ((451040000, 461040000), 0.9955%float);
    ((451040000, 441040000), 0.0045%float);
    ((521270000, 531270000), 1.0%float);
    ((471100001, 471100000), (1.0 - 0.9867)%float);
    ((491190001, 491190000), (1.0 - 0.956)%float);
    ((511260001, 511260000), 0.14%float);
    ((320770001, 320770000), 0.19%float);
    ((360850001, 360850000), (1.0 - 0.788)%float);
    ((711770001, 711770000), 0.217%float);
    ((461110001, 461110000), 0.73%float);
    ((842110001, 842110000), 0.0002%float);
    ((521290001, 531290000), 0.63%float)
  ].

(** [_branch_ratio(f)] returns the closure [br]. *)
Definition _branch_ratio (f : Z → Z → float) (x y : Z) : float :=
  match branch_ratio_special_cases !! (x, y) with
  | Some v => v
  | None => f x y
  end.

(** The [special_cases] dict of [_decay_children]. *)
Definition decay_children_special_cases : gmap Z (gset Z) :=
  list_to_map [
    (451040000, {[ 441040000; 461040000 ]});
    (521270000, {[ 531270000 ]})
  ].

(** [_decay_children(f)] returns the closure [dc]. *)
Definition _decay_children (f : Z → gset Z) (x : Z) : gset Z :=
  match decay_children_special_cases !! x with
  | Some s => s
  | None => f x
  end.

(** The module-level rebinding [branch_ratio = _branch_ratio(branch_ratio)]
    and [decay_children = _decay_children(decay_children)]. *)
Definition branch_ratio (P : provider) : Z → Z → float :=
  _branch_ratio (data.branch_ratio P).
Definition decay_children (P : provider) : Z → gset Z :=
  _decay_children (data.decay_children P).

(** ** Chain enumerator *)

(** The set comprehension of [genchains]: the children [c] of [x] with
    [0.0 == fpyield(x, c)], as the list that the [for] loop walks. Python
    iterates a set in an order of the interpreter's choosing; the model
    takes the order of [elements], which need not be CPython's, and the
    theorems on [genchains] assume nothing about that order. *)
Definition filtered_children (P : provider) (x : Z) : list Z :=
  elements (filter (λ c, (0 =? data.fpyield P x c)%float = true)
                   (decay_children P x)).

(** One turn of the [for child in children] loop: append
    [chain + (child,)] and recurse on the grown list. *)
Definition genchains_loop (rec : list (list Z) → py (list (list Z)))
    (chain : list Z) (acc : py (list (list Z))) (child : Z)
    : py (list (list Z)) :=
  chains ← acc; rec (chains ++ [chain ++ [child]]).

(** [genchains(chains)]. The list [chains] is one shared Python list that
    is appended to in place and handed down and back up, so it is threaded
    through as state. [depth] is the number of stack frames still
    available: with none left the call raises [RecursionError]. *)
Fixpoint genchains (P : provider) (depth : nat) (chains : list (list Z))
    : py (list (list Z)) :=
  match depth with
  | O => Raise RecursionError
  | S depth' =>
    match last chains with
    | None => Raise IndexError
    | Some chain =>
      match last chain with
      | None => Raise IndexError
      | Some x =>
        fold_left (genchains_loop (genchains P depth') chain)
                  (filtered_children P x) (Ret chains)
      end
    end
  end.

(** *** Specification-side notions for the enumerator *)

(** [enough P depth x]: [depth] frames suffice to expand a chain ending
    in [x]. *)
Fixpoint enough (P : provider) (depth : nat) (x : Z) : bool :=
  match depth with
  | O => false
  | S depth' => forallb (enough P depth') (filtered_children P x)
  end.

(** The extensions of a chain ending in [x], in the order in which the
    enumerator appends them. *)
Fixpoint extensions (P : provider) (depth : nat) (x : Z) : list (list Z) :=
  match depth with
  | O => []
  | S depth' =>
    flat_map (λ c, [c] :: map (cons c) (extensions P depth' c))
             (filtered_children P x)
  end.

(** [c] is a filtered decay child of [x]. *)
Definition child_of (P : provider) (x c : Z) : Prop :=
  c ∈ filtered_children P x.

(** [p] lists the successive nuclides of a decay path leaving [x]. *)
Fixpoint is_path (P : provider) (x : Z) (p : list Z) : Prop :=
  match p with
  | [] => True
  | y :: p' => child_of P x y ∧ is_path P y p'
  end.

(** [c1] is a proper prefix of [c2]. *)
Definition proper_prefix (c1 c2 : list Z) : Prop :=
  ∃ p, p ≠ [] ∧ c2 = c1 ++ p.

(** In the list [l] every chain of two or more nuclides comes after the
    chain that it extends by one nuclide. *)
Definition parents_first (l : list (list Z)) : Prop :=
  ∀ l1 c y l2, l = l1 ++ (c ++ [y]) :: l2 → c ≠ [] → c ∈ l1.

(** ** Bateman coefficient solver *)

(** [np.prod] of a vector: the multiply reduction, started at its
    identity. *)
Definition np_prod (l : list float) : float := fold_left mul l 1%float.

(** [m.prod(axis=0)] of a matrix given by its rows, [n] columns wide: the
    rows are multiplied elementwise into a vector of ones, so entry [j] is
    the product of column [j]. *)
Definition prod_axis0 (n : nat) (m : list (list float)) : list float :=
  fold_left (zip_with mul) m (replicate n 1%float).

(** [x[mask]] for a boolean [mask] as long as [x]. *)
Fixpoint select {A : Type} (mask : list bool) (x : list A) : list A :=
  match mask, x with
  | b :: mask', v :: x' => if b then v :: select mask' x' else select mask' x'
  | _, _ => []
  end.

(** [mask.sum()] of a boolean vector. *)
Definition count_true (mask : list bool) : nat :=
  length (List.filter id mask).

(** Lines 197-201 of [k_a]: the ratio matrix
    [dc[:, np.newaxis] / (dc[:, np.newaxis] - dc)], its last row replaced
    by [-1.0 / dc] for a stable end nuclide, and then its diagonal set to
    one. The last row exists: [k_a] has read [dc[-1]] before. *)
Definition cij_matrix (dc : list float) (ends_stable : bool)
    : list (list float) :=
  let cij := map (λ di, map (λ dj, di / (di - dj))%float dc) dc in
  let cij :=
    if ends_stable
    then <[Nat.pred (length cij) := map (λ d, (-1) / d)%float dc]> cij
    else cij in
  imap (λ i row, <[i := 1%float]> row) cij.

(** Lines 202-208 of [k_a]: [ci] and the amplitudes [k] before the branch
    ratios are applied. *)
Definition amplitudes (dc : list float) (dc_last : float)
    (ends_stable : bool) : list float :=
  let ci := prod_axis0 (length dc) (cij_matrix dc ends_stable) in
  if ends_stable
  then <[Nat.pred (length dc) := 1%float]> (zip_with mul dc ci)
  else zip_with mul (map (λ d, d / dc_last)%float dc) ci.

(** Line 213 of [k_a]: the product of the branch ratios along the chain. *)
Definition gamma (P : provider) (chain : list Z) : float :=
  np_prod (zip_with (branch_ratio P) (removelast chain) (tail chain)).

(** Lines 225-229 of [k_a]: the half-life filter. [np_sum] is numpy's
    [sum] of a vector (a pairwise summation, not part of this
    repository). *)
Definition half_life_filter (np_sum : list float → float) (hl : list float)
    (ends_stable : bool) : list bool :=
  if ends_stable
  then
    let h := removelast hl in
    map (λ x, 1e-8 <? x / np_sum h)%float h ++ [true]
  else map (λ x, 1e-8 <? x / np_sum hl)%float hl.

(** Lines 225-231 of [k_a]: the filter, given up for the mask of ones (as
    long as [chain], hence as [hl]) when fewer than two terms survive. *)
Definition half_life_mask (np_sum : list float → float) (hl : list float)
    (ends_stable : bool) : list bool :=
  let mask := half_life_filter np_sum hl ends_stable in
  if (count_true mask <? 2)%nat then replicate (length hl) true else mask.

(** [k_a(chain)]. The result [(None, None)] is [Ret None]; a coefficient
    pair [(k[mask], a[mask])] is [Ret (Some (k, a))]. *)
Definition k_a (P : provider) (np_sum : list float → float)
    (chain : list Z) : py (option (list float * list float)) :=
  let hl := map (data.half_life P) chain in
  let a := map (λ h, (-1) / h)%float hl in
  let dc := map (data.decay_const P) chain in
  if existsb is_nan dc then Ret None else
  match last dc with
  | None => Raise IndexError
  | Some dc_last =>
    let ends_stable := (dc_last <? 1e-16)%float in
    let k := amplitudes dc dc_last ends_stable in
    if existsb is_infinity k then Ret None else
    let gamma := gamma P chain in
    if (gamma =? 0)%float then Ret None else
    let k := map (λ k_i, k_i * gamma)%float k in
    let mask := half_life_mask np_sum hl ends_stable in
    Ret (Some (select mask k, select mask a))
  end.

(** *** Specification-side notions for the solver *)

(** Entry [(i, j)] of the matrix of [k_a] in closed form. *)
Definition cij_entry (dc : list float) (ends_stable : bool) (i j : nat)
    : float :=
  if (i =? j)%nat then 1%float
  else if ends_stable && (i =? Nat.pred (length dc))%nat
       then ((-1) / nth j dc 0)%float
       else (nth i dc 0 / (nth i dc 0 - nth j dc 0))%float.

(** The amplitudes [k] of a chain as they stand at line 209, before the
    branch ratios are applied. *)
Definition raw_amplitudes (P : provider) (chain : list Z) : list float :=
  let dc := map (data.decay_const P) chain in
  match last dc with
  | None => []
  | Some dc_last => amplitudes dc dc_last (dc_last <? 1e-16)%float
  end.

(** The unpruned coefficient arrays [k] (after line 216) and [a]. *)
Definition full_k (P : provider) (chain : list Z) : list float :=
  map (λ k_i, k_i * gamma P chain)%float (raw_amplitudes P chain).
Definition full_a (P : provider) (chain : list Z) : list float :=
  map (λ n, (-1) / data.half_life P n)%float chain.

(** Whether the chain ends in a stable nuclide, as [k_a] decides it. *)
Definition chain_ends_stable (P : provider) (chain : list Z) : bool :=
  match last chain with
  | None => false
  | Some n => (data.decay_const P n <? 1e-16)%float
  end.

(** ** Expression synthesizer *)

(** The templates. [fmt_e] is Python's formatting of a float with the
    presentation type [e]. *)
Definition EXP_EXPR (fmt_e : float → string) (a : float) : string :=
  "exp2(" +:+ fmt_e a +:+ "*t)".
Definition KEXP_EXPR (fmt_e : float → string) (k a : float) : string :=
  fmt_e k +:+ "*" +:+ EXP_EXPR fmt_e a.
Definition CHAIN_EXPR (terms : string) : string :=
  "(it->second) * (" +:+ terms +:+ ")".

(** [sep.join(l)]. *)
Definition str_join (sep : string) (l : list string) : string :=
  match l with
  | [] => ""
  | s :: l' => fold_left (λ acc t, acc +:+ sep +:+ t) l' s
  end.

(** [kexpexpr(k, a)]. *)
Definition kexpexpr (fmt_e : float → string) (k a : float) : string :=
  if (k =? 1)%float then EXP_EXPR fmt_e a else KEXP_EXPR fmt_e k a.

(** The body of the loop of [chainexpr]. *)
Definition chain_term (fmt_e : float → string) (k_i a_i : float) : string :=
  if (k_i =? 1)%float && (a_i =? 0)%float then "1.0"
  else kexpexpr fmt_e k_i a_i.

(** Division of two Python floats: a zero divisor raises. *)
Definition float_div (x y : float) : py float :=
  if (y =? 0)%float then Raise ZeroDivisionError else Ret (x / y)%float.

(** [chainexpr(chain)]; [half_life] returns a Python float, so the
    division of line 246 is Python's, not numpy's. *)
Definition chainexpr (P : provider) (np_sum : list float → float)
    (fmt_e : float → string) (chain : list Z) : py (option string) :=
  match last chain with
  | None => Raise IndexError
  | Some child =>
    if (length chain =? 1)%nat then
      a ← float_div (-1) (data.half_life P child);
      Ret (Some (CHAIN_EXPR (EXP_EXPR fmt_e a)))
    else
      ka ← k_a P np_sum chain;
      match ka with
      | None => Ret None
      | Some (k, a) =>
        Ret (Some (CHAIN_EXPR (str_join " + " (zip_with (chain_term fmt_e) k a))))
      end
  end.

(** ** The solver and the synthesizer over any arithmetic

    The same two functions with the floating-point operations taken as a
    parameter: at the binary64 operations they are [k_a] and (up to the
    formatting of the terms) [chainexpr]; at an exact arithmetic they are
    the algebra of the Bateman coefficients. *)
Module generic.

(** The operations and constants that [k_a] and [chainexpr] use. *)
Record arith (F : Type) : Type := Arith {
  lit0 : F;
  lit1 : F;
  neg : F → F;
  minus : F → F → F;
  times : F → F → F;
  over : F → F → F;
  lt : F → F → bool;
  eq : F → F → bool;
  isnan : F → bool;
  isinf : F → bool;
  lit1e_16 : F;
  lit1e_8 : F
}.
Arguments lit0 {F} _.
Arguments lit1 {F} _.
Arguments neg {F} _ _.
Arguments minus {F} _ _ _.
Arguments times {F} _ _ _.
Arguments over {F} _ _ _.
Arguments lt {F} _ _ _.
Arguments eq {F} _ _ _.
Arguments isnan {F} _ _.
Arguments isinf {F} _ _.
Arguments lit1e_16 {F} _.
Arguments lit1e_8 {F} _.

(** The data that the solver reads, the branch ratios being the corrected
    ones. *)
Record data (F : Type) : Type := Data {
  half_life : Z → F;
  decay_const : Z → F;
  branch_ratio : Z → Z → F
}.
Arguments half_life {F} _ _.
Arguments decay_const {F} _ _.
Arguments branch_ratio {F} _ _ _.

(** A term of a chain expression before it is formatted: the constant
    ['1.0'], [EXP_EXPR] or [KEXP_EXPR]. *)
Inductive term (F : Type) : Type :=
  | Const1
  | Exp (a : F)
  | KExp (k a : F).
Arguments Const1 {F}.
Arguments Exp {F} a.
Arguments KExp {F} k a.

Section Generic.
Context {F : Type} (A : arith F).

Definition np_prod (l : list F) : F := fold_left (times A) l (lit1 A).

Definition prod_axis0 (n : nat) (m : list (list F)) : list F :=
  fold_left (zip_with (times A)) m (replicate n (lit1 A)).

Definition cij_matrix (dc : list F) (ends_stable : bool) : list (list F) :=
  let cij := map (λ di, map (λ dj, over A di (minus A di dj)) dc) dc in
  let cij :=
    if ends_stable
    then <[Nat.pred (length cij) := map (λ d, over A (neg A (lit1 A)) d) dc]>
           cij
    else cij in
  imap (λ i row, <[i := lit1 A]> row) cij.

Definition amplitudes (dc : list F) (dc_last : F) (ends_stable : bool)
    : list F :=
  let ci := prod_axis0 (length dc) (cij_matrix dc ends_stable) in
  if ends_stable
  then <[Nat.pred (length dc) := lit1 A]> (zip_with (times A) dc ci)
  else zip_with (times A) (map (λ d, over A d dc_last) dc) ci.

Definition gamma (E : data F) (chain : list Z) : F :=
  np_prod (zip_with (branch_ratio E) (removelast chain) (tail chain)).

Definition half_life_filter (np_sum : list F → F) (hl : list F)
    (ends_stable : bool) : list bool :=
  if ends_stable
  then
    let h := removelast hl in
    map (λ x, lt A (lit1e_8 A) (over A x (np_sum h))) h ++ [true]
  else map (λ x, lt A (lit1e_8 A) (over A x (np_sum hl))) hl.

Definition half_life_mask (np_sum : list F → F) (hl : list F)
    (ends_stable : bool) : list bool :=
  let mask := half_life_filter np_sum hl ends_stable in
  if (count_true mask <? 2)%nat then replicate (length hl) true else mask.

(** [k_a(chain)]. *)
Definition k_a (E : data F) (np_sum : list F → F) (chain : list Z)
    : py (option (list F * list F)) :=
  let hl := map (half_life E) chain in
  let a := map (λ h, over A (neg A (lit1 A)) h) hl in
  let dc := map (decay_const E) chain in
  if existsb (isnan A) dc then Ret None else
  match last dc with
  | None => Raise IndexError
  | Some dc_last =>
    let ends_stable := lt A dc_last (lit1e_16 A) in
    let k := amplitudes dc dc_last ends_stable in
    if existsb (isinf A) k then Ret None else
    let gamma := gamma E chain in
    if eq A gamma (lit0 A) then Ret None else
    let k := map (λ k_i, times A k_i gamma) k in
    let mask := half_life_mask np_sum hl ends_stable in
    Ret (Some (select mask k, select mask a))
  end.

(** [kexpexpr(k, a)] and the body of the loop of [chainexpr], before
    formatting. *)
Definition kexpexpr (k a : F) : term F :=
  if eq A k (lit1 A) then Exp a else KExp k a.
Definition chain_term (k_i a_i : F) : term F :=
  if eq A k_i (lit1 A) && eq A a_i (lit0 A) then Const1
  else kexpexpr k_i a_i.

Definition float_div (x y : F) : py F :=
  if eq A y (lit0 A) then Raise ZeroDivisionError else Ret (over A x y).

(** [chainexpr(chain)], returning the terms that it joins. *)
Definition chain_terms (E : data F) (np_sum : list F → F) (chain : list Z)
    : py (option (list (term F))) :=
  match last chain with
  | None => Raise IndexError
  | Some child =>
    if (length chain =? 1)%nat then
      a ← float_div (neg A (lit1 A)) (half_life E child);
      Ret (Some [Exp a])
    else
      ka ← k_a E np_sum chain;
      match ka with
      | None => Ret None
      | Some (k, a) => Ret (Some (zip_with chain_term k a))
      end
  end.

End Generic.
End generic.

(** The binary64 arithmetic of Python and numpy. *)
Definition binary64 : generic.arith float :=
  generic.Arith float 0%float 1%float PrimFloat.opp PrimFloat.sub
    PrimFloat.mul PrimFloat.div PrimFloat.ltb PrimFloat.eqb
    PrimFloat.is_nan PrimFloat.is_infinity 1e-16%float 1e-8%float.

(** The data of a provider, as the solver reads them. *)
Definition solver_data (P : provider) : generic.data float :=
  generic.Data float (data.half_life P) (data.decay_const P)
    (branch_ratio P).

(** The text of a term. *)
Definition render (fmt_e : float → string) (t : generic.term float)
    : string :=
  match t with
  | generic.Const1 => "1.0"
  | generic.Exp a => EXP_EXPR fmt_e a
  | generic.KExp k a => KEXP_EXPR fmt_e k a
  end.

(** *** Exact arithmetic

    The real numbers with the two infinities and not-a-number: finite
    values are added, multiplied and divided exactly, and the other cases
    follow the IEEE rules (with a single, unsigned zero). *)
Inductive xreal : Type :=
  | Fin (r : R)
  | PInf
  | NInf
  | NaN.

(** The sign of a real: [None] for zero. *)
Definition Rsign (r : R) : option bool :=
  if Req_dec_T r 0 then None
  else if Rlt_dec 0 r then Some true else Some false.

Definition xinf (positive : bool) : xreal :=
  if positive then PInf else NInf.

Definition xopp (x : xreal) : xreal :=
  match x with
  | Fin r => Fin (- r)
  | PInf => NInf
  | NInf => PInf
  | NaN => NaN
  end.

Definition xsub (x y : xreal) : xreal :=
  match x, y with
  | NaN, _ | _, NaN => NaN
  | Fin a, Fin b => Fin (a - b)
  | Fin _, PInf => NInf
  | Fin _, NInf => PInf
  | PInf, Fin _ | PInf, NInf => PInf
  | NInf, Fin _ | NInf, PInf => NInf
  | PInf, PInf | NInf, NInf => NaN
  end.

Definition xmul (x y : xreal) : xreal :=
  match x, y with
  | NaN, _ | _, NaN => NaN
  | Fin a, Fin b => Fin (a * b)
  | Fin a, PInf | PInf, Fin a =>
    match Rsign a with None => NaN | Some s => xinf s end
  | Fin a, NInf | NInf, Fin a =>
    match Rsign a with None => NaN | Some s => xinf (negb s) end
  | PInf, PInf | NInf, NInf => PInf
  | PInf, NInf | NInf, PInf => NInf
  end.

Definition xdiv (x y : xreal) : xreal :=
  match x, y with
  | NaN, _ | _, NaN => NaN
  | Fin a, Fin b =>
    if Req_dec_T b 0
    then match Rsign a with None => NaN | Some s => xinf s end
    else Fin (a / b)
  | Fin _, PInf | Fin _, NInf => Fin 0
  | PInf, Fin b => if Rlt_dec b 0 then NInf else PInf
  | NInf, Fin b => if Rlt_dec b 0 then PInf else NInf
  | PInf, PInf | PInf, NInf | NInf, PInf | NInf, NInf => NaN
  end.

Definition xltb (x y : xreal) : bool :=
  match x, y with
  | Fin a, Fin b => if Rlt_dec a b then true else false
  | NInf, Fin _ | NInf, PInf | Fin _, PInf => true
  | _, _ => false
  end.

Definition xeqb (x y : xreal) : bool :=
  match x, y with
  | Fin a, Fin b => if Req_dec_T a b then true else false
  | PInf, PInf | NInf, NInf => true
  | _, _ => false
  end.

Definition xis_nan (x : xreal) : bool :=
  match x with NaN => true | _ => false end.

Definition xis_infinity (x : xreal) : bool :=
  match x with PInf | NInf => true | _ => false end.

Definition exact : generic.arith xreal :=
  generic.Arith xreal (Fin 0) (Fin 1) xopp xsub xmul xdiv xltb xeqb
    xis_nan xis_infinity (Fin (/ 10000000000000000)) (Fin (/ 100000000)).




(** ** Dispatch assembler *)

(** The functions of [pyne.nucname] that the assembler calls; like the
    data provider they are not part of this repository. *)
Module nucname.
Record namer : Type := Namer {
  znum : Z → Z;
  name : Z → string
}.
End nucname.

(** The exceptions of the assembler: those of the enumerator and the
    synthesizer, and [KeyError] for a dict read with a missing key. *)
Inductive dispatch_exn : Set :=
  | SolverError (e : exn)
  | KeyError.

(** What a call of the assembler comes to. *)
Inductive result (A : Type) : Type :=
  | Returns (a : A)
  | Raises (e : dispatch_exn).
Arguments Returns {A} a.
Arguments Raises {A} e.

(** The string constants of the module; integers are formatted in
    decimal. *)
Definition BREAK : string := "  break;".
Definition CHAIN_STMT (slot expr : string) : string :=
  "  out[" +:+ slot +:+ "] += " +:+ expr +:+ ";".
Definition newline : string := String "010"%char "".

(** The body of the loop [for c in chains] of [gencase]. *)
Definition gencase_loop (P : provider) (np_sum : list float → float)
    (fmt_e : float → string) (idx : gmap Z nat)
    (acc : py (list string)) (c : list Z) : py (list string) :=
  case ← acc;
  match last c with
  | None => Raise IndexError
  | Some terminal =>
    match idx !! terminal with
    | None => Ret case
    | Some slot =>
      cexpr ← chainexpr P np_sum fmt_e c;
      match cexpr with
      | None => Ret case
      | Some cexpr => Ret (case ++ [CHAIN_STMT (pretty slot) cexpr])
      end
    end
  end.

(** The line that [gencase] prints for a nuclide that decays. *)
Definition gencase_print (chains : list (list Z)) (nuc : Z) : string :=
  pretty (length chains) +:+ " " +:+ pretty (length (remove_dups chains))
  +:+ " " +:+ pretty nuc.

(** [gencase(nuc, idx)]: the lines it prints, and the case it returns.
    [depth] is the stack left for the call of [genchains]. *)
Definition gencase (P : provider) (np_sum : list float → float)
    (fmt_e : float → string) (depth : nat) (nuc : Z) (idx : gmap Z nat)
    : list string * result (list string) :=
  let case := ["case " +:+ pretty nuc +:+ ":"] in
  let dc := data.decay_const P nuc in
  if (dc =? 0)%float then
    match idx !! nuc with
    | None => ([], Raises KeyError)
    | Some slot =>
      ([], Returns (case ++ [CHAIN_STMT (pretty slot) "it->second"]
                         ++ [BREAK]))
    end
  else
    match genchains P depth [[nuc]] with
    | Raise e => ([], Raises (SolverError e))
    | Ret chains =>
      ([gencase_print chains nuc],
       match fold_left (gencase_loop P np_sum fmt_e idx) chains (Ret case)
       with
       | Raise e => Raises (SolverError e)
       | Ret case => Returns (case ++ [BREAK])
       end)
    end.

(** [elems(nucs)]: [sorted(set(map(nucname.znum, nucs)))]. *)
Definition elems (N : nucname.namer) (nucs : list Z) : list Z :=
  merge_sort Z.le
    (elements (list_to_set (map (nucname.znum N) nucs) : gset Z)).

(** Line 299 of [genelemfuncs]: [dict(zip(nucs, range(len(nucs))))]; a
    later pair replaces an earlier one with the same key. *)
Definition nuc_index (nucs : list Z) : gmap Z nat :=
  fold_left (λ idx ni, <[ni.1 := ni.2]> idx)
            (zip nucs (seq 0 (length nucs))) ∅.

(** The dict [cases] of [genelemfuncs], in the order in which its keys
    were inserted, and the statement [cases[z] += lines] on it. *)
Fixpoint cases_extend (z : Z) (lines : list string)
    (cases : list (Z * list string)) : result (list (Z * list string)) :=
  match cases with
  | [] => Raises KeyError
  | (k, kases) :: cases' =>
    if decide (k = z) then Returns ((k, kases ++ lines) :: cases')
    else
      match cases_extend z lines cases' with
      | Returns cases'' => Returns ((k, kases) :: cases'')
      | Raises e => Raises e
      end
  end.

(** Whether [cases] has the key [z]. *)
Definition cases_has (z : Z) (cases : list (Z * list string)) : bool :=
  bool_decide (z ∈ map fst cases).

(** The body of the loop [for nuc in nucs] of [genelemfuncs]; the target
    [cases[znum(nuc)]] is read before [gencase] is called. The state is
    what has been printed so far and the dict. *)
Definition genelemfuncs_loop (N : nucname.namer) (P : provider)
    (np_sum : list float → float) (fmt_e : float → string) (depth : nat)
    (idx : gmap Z nat)
    (acc : list string * result (list (Z * list string))) (nuc : Z)
    : list string * result (list (Z * list string)) :=
  match acc with
  | (printed, Raises e) => (printed, Raises e)
  | (printed, Returns cases) =>
    if cases_has (nucname.znum N nuc) cases then
      match gencase P np_sum fmt_e depth nuc idx with
      | (lines, Raises e) => (printed ++ lines, Raises e)
      | (lines, Returns case) =>
        (printed ++ lines, cases_extend (nucname.znum N nuc) case cases)
      end
    else (printed, Raises KeyError)
  end.

(** [genelemfuncs(nucs)]. [render] is the rendering of the template
    [ELEM_FUNC] for the context [nucs], [elem] and [cases]. *)
Definition genelemfuncs (N : nucname.namer)
    (render : list Z → string → string → string) (P : provider)
    (np_sum : list float → float) (fmt_e : float → string) (depth : nat)
    (nucs : list Z) : list string * result string :=
  let idx := nuc_index nucs in
  let cases := map (λ i, (i, @nil string)) (elems N nucs) in
  match fold_left (genelemfuncs_loop N P np_sum fmt_e depth idx) nucs
                  ([], Returns cases) with
  | (printed, Raises e) => (printed, Raises e)
  | (printed, Returns cases) =>
    let funcs :=
      map (λ ik, render nucs (nucname.name N ik.1) (str_join newline ik.2))
          cases in
    (printed, Returns (str_join (newline +:+ newline) funcs))
  end.

(** *** Specification-side notions for the assembler *)

(** The statement that a chain contributes to a case: one for a chain
    whose terminal nuclide has a slot and whose expression exists. *)
Definition case_statement (P : provider) (np_sum : list float → float)
    (fmt_e : float → string) (idx : gmap Z nat) (c : list Z)
    : option string :=
  terminal ← last c;
  slot ← idx !! terminal;
  match chainexpr P np_sum fmt_e c with
  | Ret (Some cexpr) => Some (CHAIN_STMT (pretty slot) cexpr)
  | _ => None
  end.

(** The case of a nuclide, when [gencase] returns one, and what it
    prints. *)
Definition case_lines (P : provider) (np_sum : list float → float)
    (fmt_e : float → string) (depth : nat) (idx : gmap Z nat) (nuc : Z)
    : list string :=
  match (gencase P np_sum fmt_e depth nuc idx).2 with
  | Returns case => case
  | Raises _ => []
  end.
Definition case_printed (P : provider) (np_sum : list float → float)
    (fmt_e : float → string) (depth : nat) (idx : gmap Z nat) (nuc : Z)
    : list string :=
  (gencase P np_sum fmt_e depth nuc idx).1.

(** ** Example providers *)

(** The left-to-right sum, standing in for numpy's [sum] in the
    examples. *)
Definition sum_left (l : list float) : float := fold_left add l 0%float.

(** A parent [1] with half-life [hl_p] and decay constant [lam] that
    decays with branch ratio [g] to the stable daughter [2]. *)
Definition two_species (hl_p lam g : float) : provider :=
  data.Provider
    (λ n, if decide (n = 1) then hl_p else infinity)
    (λ n, if decide (n = 1) then lam else 0%float)
    (λ _ _, g)
    (λ n, if decide (n = 1) then {[ 2 ]} else ∅)
    (λ _ _, 0%float).

(** An isomer pair whose two states decay into each other, neither being
    a fission product of the other. *)
Definition isomer_pair : provider :=
  data.Provider
    (λ _, 1%float)
    (λ _, 0.6931471805599453%float)
    (λ _ _, 1%float)
    (λ n, if decide (n = 1) then {[ 2 ]}
          else if decide (n = 2) then {[ 1 ]} else ∅)
    (λ _ _, 0%float).

(** A rank that decreases along every decay of [two_species], the
    corrected decays of the override table included. *)
Definition two_species_rank (n : Z) : nat :=
  if decide (n = 1) then 1%nat
  else if decide (n = 451040000) then 1%nat
  else if decide (n = 521270000) then 1%nat
  else 0%nat.

(** Two decay paths that meet again: [1] decays to [2] and [3], and both
    decay to the stable [4]. The half-lives of [1], [2] and [3] are [1],
    [2] and [4], the decay constants [ln 2] over these, and all branch
    ratios one half. *)
Definition diamond : provider :=
  data.Provider
    (λ n, if decide (n = 4) then infinity
          else if decide (n = 2) then 2%float
          else if decide (n = 3) then 4%float else 1%float)
    (λ n, if decide (n = 4) then 0%float
          else if decide (n = 2) then 0.34657359027997264%float
          else if decide (n = 3) then 0.17328679513998632%float
          else 0.6931471805599453%float)
    (λ _ _, 0.5%float)
    (λ n, if decide (n = 1) then {[ 2; 3 ]}
          else if decide (n = 2) then {[ 4 ]}
          else if decide (n = 3) then {[ 4 ]} else ∅)
    (λ _ _, 0%float).

(** A namer that puts the nuclides [2 z - 1] and [2 z] in the element
    [z], called [E] followed by [z]. *)
Definition sample_namer : nucname.namer :=
  nucname.Namer (λ n, (n + 1) `div` 2) (λ z, "E" +:+ pretty z).

(** A stand-in for the rendering of [ELEM_FUNC]. *)
Definition sample_render (nucs : list Z) (elem cases : string) : string :=
  "void decay_" +:+ elem +:+ "() {" +:+ newline +:+ cases +:+ newline
  +:+ "}".



(** A short-lived parent: [1] has the half-life [1e-10] and decays to
    [2], which has the half-life [1] and decays to the stable [3]; the
    decay constants are [ln 2] over the half-lives and the branch ratios
    are one. *)
Definition fast_parent : provider :=
  data.Provider
    (λ n, if decide (n = 1) then 1e-10%float
          else if decide (n = 2) then 1%float else infinity)
    (λ n, if decide (n = 1) then 6931471805.599453%float
          else if decide (n = 2) then 0.6931471805599453%float
          else 0%float)
    (λ _ _, 1%float)
    (λ n, if decide (n = 1) then {[ 2 ]}
          else if decide (n = 2) then {[ 3 ]} else ∅)
    (λ _ _, 0%float).

(** A stand-in for Python's [format(x, 'e')] that agrees with it on [1]
    and [-1], the only values that the examples below format. *)
Definition fmt_e_sample (x : float) : string :=
  if (x =? 1)%float then "1.000000e+00"
  else if (x =? -1)%float then "-1.000000e+00"
  else "<float>".

(** * Properties *)

(** ** Chain enumerator *)

Section Enumerator.
Context (P : provider).

Lemma genchains_loop_raise rec chain l e :
  fold_left (genchains_loop rec chain) l (Raise e) = Raise e.
Proof. induction l as [|c l IH]; [done | exact IH]. Qed.

Lemma genchains_loop_spec depth chain :
  (∀ cs c, genchains P depth (cs ++ [chain ++ [c]]) =
     if enough P depth c
     then Ret ((cs ++ [chain ++ [c]])
               ++ map (app (chain ++ [c])) (extensions P depth c))
     else Raise RecursionError) →
  ∀ l cs,
    fold_left (genchains_loop (genchains P depth) chain) l (Ret cs) =
    if forallb (enough P depth) l
    then Ret (cs ++ map (app chain)
                (flat_map (λ c, [c] :: map (cons c) (extensions P depth c)) l))
    else Raise RecursionError.
Proof.
  intros Hrec l. induction l as [|c l IH]; intros cs.
  - simpl. by rewrite app_nil_r.
  - cbn [fold_left forallb flat_map].
    unfold genchains_loop at 2. cbn [mbind py_bind]. rewrite Hrec.
    destruct (enough P depth c); cbn [andb].
    + rewrite IH. destruct (forallb _ l); [|done]. f_equal.
      rewrite map_app. cbn [map]. rewrite map_map, <- !app_assoc. cbn [app].
      do 3 f_equal. apply map_ext. intros p. by rewrite <- app_assoc.
    + apply genchains_loop_raise.
Qed.

(** The enumerator in closed form: with enough stack it appends the
    extensions of the last chain, otherwise it raises. *)
Lemma genchains_closed_form depth : ∀ chains chain x,
  last chains = Some chain → last chain = Some x →
  genchains P depth chains =
    if enough P depth x
    then Ret (chains ++ map (app chain) (extensions P depth x))
    else Raise RecursionError.
Proof.
  induction depth as [|depth IH]; intros chains chain x Hc Hx; [done|].
  cbn [genchains enough extensions]. rewrite Hc, Hx.
  apply genchains_loop_spec. intros cs c.
  apply (IH _ (chain ++ [c]) c); apply last_snoc.
Qed.

Lemma genchains_ret_inv depth chains out :
  genchains P depth chains = Ret out →
  ∃ chain x, last chains = Some chain ∧ last chain = Some x
    ∧ enough P depth x = true
    ∧ out = chains ++ map (app chain) (extensions P depth x).
Proof.
  intros H. destruct depth as [|depth]; [done|].
  destruct (last chains) as [chain|] eqn:Hc; [|by simpl in H; rewrite Hc in H].
  destruct (last chain) as [x|] eqn:Hx;
    [|by simpl in H; rewrite Hc, Hx in H].
  rewrite (genchains_closed_form _ _ _ _ Hc Hx) in H.
  destruct (enough P (S depth) x) eqn:He; [|done].
  exists chain, x. repeat split; congruence.
Qed.

Lemma extensions_path depth : ∀ x p,
  p ∈ extensions P depth x → p ≠ [] ∧ is_path P x p.
Proof.
  induction depth as [|depth IH]; intros x p Hp; [by apply elem_of_nil in Hp|].
  cbn [extensions] in Hp. apply list_elem_of_In, in_flat_map in Hp.
  destruct Hp as (c & Hc & Hp). apply list_elem_of_In in Hc.
  apply list_elem_of_In, elem_of_cons in Hp. destruct Hp as [->|Hp].
  - split; [done|]. by split.
  - apply list_elem_of_In, in_map_iff in Hp. destruct Hp as (q & <- & Hq).
    apply list_elem_of_In, IH in Hq. split; [done|]. split; [done|]. apply Hq.
Qed.

Lemma extensions_nil_iff depth x :
  extensions P (S depth) x = [] ↔ filtered_children P x = [].
Proof.
  cbn [extensions]. destruct (filtered_children P x) as [|c l]; [done|].
  split; intros H; discriminate H.
Qed.

Lemma enough_child n x y :
  enough P n x = true → child_of P x y →
  ∃ n', n = S n' ∧ enough P n' y = true.
Proof.
  destruct n as [|n]; [done|]. cbn [enough]. intros H Hy.
  exists n. split; [done|]. rewrite forallb_forall in H.
  by apply H, list_elem_of_In.
Qed.

Lemma enough_mono n : ∀ x, enough P n x = true → enough P (S n) x = true.
Proof.
  induction n as [|n IH]; intros x H; [done|].
  cbn [enough] in *. rewrite forallb_forall in *. auto.
Qed.

Lemma enough_tc n x y :
  enough P n x = true → tc (child_of P) x y →
  ∃ n', n = S n' ∧ enough P n' y = true.
Proof.
  intros H Hxy. revert n H. induction Hxy as [x y Hxy|x z y Hxz _ IH]; intros n H.
  - by apply enough_child with x.
  - destruct (enough_child _ _ _ H Hxz) as (n' & -> & Hz).
    destruct (IH _ Hz) as (n'' & -> & Hy).
    exists (S n''). split; [done|]. by apply enough_mono.
Qed.

(** A nuclide that can be expanded within some depth is not its own
    descendant. *)
Lemma enough_acyclic n : ∀ x,
  enough P n x = true → ¬ tc (child_of P) x x.
Proof.
  induction n as [|n IH]; intros x H Hcyc; [done|].
  destruct (enough_tc _ _ _ H Hcyc) as (n' & [= <-] & Hx).
  by apply (IH x).
Qed.

Lemma enough_rtc n x y :
  enough P n x = true → rtc (child_of P) x y → ∃ n', enough P n' y = true.
Proof.
  intros H Hxy. revert n H. induction Hxy as [x|x z y Hxz _ IH]; intros n H.
  - by exists n.
  - destruct (enough_child _ _ _ H Hxz) as (n' & -> & Hz). by apply (IH n').
Qed.

Lemma path_reach : ∀ p x y,
  is_path P x p → y ∈ p → tc (child_of P) x y.
Proof.
  induction p as [|z p IH]; intros x y Hp Hy; [by apply elem_of_nil in Hy|].
  destruct Hp as [Hxz Hp]. apply elem_of_cons in Hy as [->|Hy].
  - by apply tc_once.
  - apply tc_l with z; [done|]. by apply IH.
Qed.

Lemma path_NoDup : ∀ p x,
  (∀ y, rtc (child_of P) x y → ¬ tc (child_of P) y y) →
  is_path P x p → NoDup (x :: p).
Proof.
  induction p as [|z p IH]; intros x Hacyc Hp.
  - apply NoDup_singleton.
  - apply NoDup_cons. split.
    + intros Hx. apply (Hacyc x); [done|]. by apply path_reach with (z :: p).
    + destruct Hp as [Hxz Hp]. apply IH; [|done].
      intros y Hy. apply Hacyc. by apply rtc_l with z.
Qed.

Lemma rank_enough (rank : Z → nat) :
  (∀ x c, child_of P x c → (rank c < rank x)%nat) →
  ∀ n x, (rank x < n)%nat → enough P n x = true.
Proof.
  intros Hrank n. induction n as [|n IH]; intros x Hx; [lia|].
  cbn [enough]. apply forallb_forall. intros c Hc.
  apply IH. apply list_elem_of_In, Hrank in Hc. lia.
Qed.

End Enumerator.

(** C10. Whenever the enumerator returns, its output is the input list
    followed by newly added chains: every chain of a non-empty input list
    (so the seed chain of [genchains([(nuc,)])] too) is still in the output,
    and every added chain has the last input chain as a proper prefix. *)
Theorem genchains_extends_input (P : provider) (depth : nat)
    (chains out : list (list Z)) :
  chains ≠ [] →
  genchains P depth chains = Ret out →
  ∃ chain new,
    last chains = Some chain ∧ out = chains ++ new
    ∧ (∀ c, c ∈ chains → c ∈ out)
    ∧ (∀ c, c ∈ new → proper_prefix chain c).
Proof.
  intros _ H. apply genchains_ret_inv in H.
  destruct H as (chain & x & Hc & Hx & _ & ->).
  exists chain, (map (app chain) (extensions P depth x)).
  repeat split; [done| |].
  - intros c Hin. apply elem_of_app. by left.
  - intros c Hin. apply list_elem_of_In, in_map_iff in Hin.
    destruct Hin as (p & <- & Hp). apply list_elem_of_In, extensions_path in Hp.
    exists p. by split; [apply Hp|].
Qed.

Lemma genchains_extends_input_witness :
  ∃ chain new,
    last [[1]] = Some chain ∧ [[1]; [1; 2]] = [[1]] ++ new
    ∧ (∀ c, c ∈ [[1]] → c ∈ [[1]; [1; 2]])
    ∧ (∀ c, c ∈ new → proper_prefix chain c).
Proof.
  apply (genchains_extends_input
           (two_species 1 0.6931471805599453 1) 2 [[1]] [[1]; [1; 2]]).
  - discriminate.
  - vm_compute. reflexivity.
Defined.

(** C6. No nuclide occurs twice in a chain of the enumerator's output for
    a seed: a repeated nuclide would be its own descendant, and then no
    stack depth lets the enumerator return. *)
Theorem genchains_no_repeat (P : provider) (depth : nat) (seed : Z)
    (out : list (list Z)) :
  genchains P depth [[seed]] = Ret out →
  ∀ c, c ∈ out → NoDup c.
Proof.
  intros H c Hc. apply genchains_ret_inv in H.
  destruct H as (chain & x & [= <-] & [= <-] & Hen & ->).
  assert (Hacyc : ∀ y, rtc (child_of P) seed y → ¬ tc (child_of P) y y).
  { intros y Hy. destruct (enough_rtc _ _ _ _ Hen Hy) as [n Hn].
    by apply enough_acyclic with n. }
  apply elem_of_app in Hc as [Hc|Hc].
  - apply list_elem_of_singleton in Hc as ->. apply NoDup_singleton.
  - apply list_elem_of_In, in_map_iff in Hc. destruct Hc as (p & <- & Hp).
    apply list_elem_of_In, extensions_path in Hp.
    apply path_NoDup with P; [done|apply Hp].
Qed.

Lemma genchains_no_repeat_witness :
  NoDup [1] ∧ NoDup [1; 2].
Proof.
  assert (H : genchains (two_species 1 0.6931471805599453 1) 2 [[1]]
              = Ret [[1]; [1; 2]]) by (vm_compute; reflexivity).
  split;
    apply (genchains_no_repeat (two_species 1 0.6931471805599453 1) 2 1
             [[1]; [1; 2]] H).
  - apply elem_of_cons. by left.
  - apply elem_of_cons. right. apply elem_of_cons. by left.
Defined.

(** The two states of [isomer_pair] are each other's filtered children. *)
Lemma isomer_pair_cycle : tc (child_of isomer_pair) 1 1.
Proof.
  apply tc_l with 2; [|apply tc_once]; unfold child_of.
  - replace (filtered_children isomer_pair 1) with [2]
      by (vm_compute; reflexivity).
    apply list_elem_of_singleton. reflexivity.
  - replace (filtered_children isomer_pair 2) with [1]
      by (vm_compute; reflexivity).
    apply list_elem_of_singleton. reflexivity.
Qed.

(** The enumeration does not terminate for every seed: on [isomer_pair]
    the call [genchains([(1,)])] returns at no stack depth. *)
Lemma genchains_isomer_pair_never_returns :
  ¬ ∃ depth out, genchains isomer_pair depth [[1]] = Ret out.
Proof.
  intros (depth & out & H). apply genchains_ret_inv in H.
  destruct H as (chain & x & [= <-] & [= <-] & Hen & _).
  exact (enough_acyclic _ _ _ Hen isomer_pair_cycle).
Qed.

(** C7, amended. A call adds nothing to its list exactly when the filtered
    daughter set of the terminal nuclide is empty. The enumeration returns
    for every seed when some rank strictly decreases from each nuclide to
    its filtered daughters and the stack is deeper than the seed's rank.
    When a nuclide that the seed reaches is its own filtered descendant,
    the enumeration returns at no stack depth. *)
Theorem genchains_terminates_ranked (P : provider) :
  (∀ depth chains chain x,
     last chains = Some chain → last chain = Some x →
     (genchains P (S depth) chains = Ret chains
      ↔ filtered_children P x = []))
  ∧ (∀ rank : Z → nat,
       (∀ x c, child_of P x c → (rank c < rank x)%nat) →
       ∀ seed depth, (rank seed < depth)%nat →
         ∃ out, genchains P depth [[seed]] = Ret out)
  ∧ (∀ seed y,
       rtc (child_of P) seed y → tc (child_of P) y y →
       ¬ ∃ depth out, genchains P depth [[seed]] = Ret out).
Proof.
  split; [|split].
  - intros depth chains chain x Hc Hx. split.
    + intros H. apply genchains_ret_inv in H.
      destruct H as (chain' & x' & Hc' & Hx' & _ & H).
      assert (chain' = chain) as -> by congruence.
      assert (x' = x) as -> by congruence.
      rewrite <- (app_nil_r chains) in H at 1. apply app_inv_head in H.
      symmetry in H. apply map_eq_nil in H. by apply extensions_nil_iff in H.
    + intros H. cbn [genchains]. by rewrite Hc, Hx, H.
  - intros rank Hrank seed depth Hd.
    rewrite (genchains_closed_form P depth [[seed]] [seed] seed) by done.
    rewrite (rank_enough P rank Hrank) by done. eauto.
  - intros seed y Hreach Hcycle (depth & out & H).
    apply genchains_ret_inv in H.
    destruct H as (chain & x & [= <-] & [= <-] & Hen & _).
    destruct (enough_rtc _ _ _ _ Hen Hreach) as [n Hn].
    exact (enough_acyclic _ _ _ Hn Hcycle).
Qed.

Lemma two_species_special_cases_none (x : Z) :
  x ≠ 451040000 → x ≠ 521270000 →
  decay_children_special_cases !! x = None.
Proof.
  intros H1 H2. unfold decay_children_special_cases. cbn [list_to_map foldr].
  cbn [fst snd]. by rewrite !lookup_insert_ne, lookup_empty.
Qed.

Lemma two_species_rank_decreases (hl_p lam g : float) (x c : Z) :
  child_of (two_species hl_p lam g) x c →
  (two_species_rank c < two_species_rank x)%nat.
Proof.
  unfold child_of, filtered_children. rewrite elem_of_elements, elem_of_filter.
  intros [_ Hc]. unfold decay_children, _decay_children in Hc.
  destruct (decide (x = 451040000)) as [->|H1].
  { replace (decay_children_special_cases !! 451040000)
      with (Some ({[ 441040000; 461040000 ]} : gset Z)) in Hc
      by (vm_compute; reflexivity).
    apply elem_of_union in Hc as [Hc|Hc]; apply elem_of_singleton in Hc as ->;
      vm_compute; lia. }
  destruct (decide (x = 521270000)) as [->|H2].
  { replace (decay_children_special_cases !! 521270000)
      with (Some ({[ 531270000 ]} : gset Z)) in Hc
      by (vm_compute; reflexivity).
    apply elem_of_singleton in Hc as ->. vm_compute; lia. }
  rewrite two_species_special_cases_none in Hc by done. cbn in Hc.
  destruct (decide (x = 1)) as [->|H3]; [|by apply not_elem_of_empty in Hc].
  apply elem_of_singleton in Hc as ->. vm_compute; lia.
Qed.

Lemma genchains_terminates_ranked_witness :
  genchains (two_species 1 0.6931471805599453 1) 1 [[1; 2]] = Ret [[1; 2]]
  ∧ (∃ out, genchains (two_species 1 0.6931471805599453 1) 2 [[1]]
            = Ret out)
  ∧ ¬ ∃ depth out, genchains isomer_pair depth [[2]] = Ret out.
Proof.
  destruct (genchains_terminates_ranked (two_species 1 0.6931471805599453 1))
    as (Hstop & Hrank & _).
  destruct (genchains_terminates_ranked isomer_pair) as (_ & _ & Hcycle).
  split; [|split].
  - apply (Hstop O [[1; 2]] [1; 2] 2); [reflexivity..|].
    vm_compute. reflexivity.
  - apply (Hrank two_species_rank (two_species_rank_decreases _ _ _) 1 2%nat).
    vm_compute. lia.
  - apply (Hcycle 2 1); [|exact isomer_pair_cycle].
    apply rtc_once. unfold child_of.
    replace (filtered_children isomer_pair 2) with [1]
      by (vm_compute; reflexivity).
    apply list_elem_of_singleton. reflexivity.
Defined.

(** ** Data-correction layer *)

(** C8. A pair found in the branching-ratio table gets the table's value
    and a parent found in the decay-children table gets the table's set,
    whatever the provider holds; every other query is answered by the
    provider. *)
Theorem override_precedence (P : provider) (x y : Z) :
  (∀ v, branch_ratio_special_cases !! (x, y) = Some v →
        branch_ratio P x y = v)
  ∧ (branch_ratio_special_cases !! (x, y) = None →
     branch_ratio P x y = data.branch_ratio P x y)
  ∧ (∀ s, decay_children_special_cases !! x = Some s →
          decay_children P x = s)
  ∧ (decay_children_special_cases !! x = None →
     decay_children P x = data.decay_children P x).
Proof.
  unfold branch_ratio, _branch_ratio, decay_children, _decay_children.
  repeat split.
  - by intros v ->.
  - by intros ->.
  - by intros s ->.
  - by intros ->.
Qed.

Lemma override_precedence_witness :
  branch_ratio isomer_pair 451040000 461040000 = 0.9955%float
  ∧ branch_ratio isomer_pair 1 2 = 1%float
  ∧ decay_children isomer_pair 451040000 = {[ 441040000; 461040000 ]}
  ∧ decay_children isomer_pair 1 = {[ 2 ]}.
Proof.
  destruct (override_precedence isomer_pair 451040000 461040000)
    as (Hbr & _ & Hdc & _).
  destruct (override_precedence isomer_pair 1 2) as (_ & Hbr' & _ & Hdc').
  split; [|split; [|split]].
  - apply Hbr. vm_compute. reflexivity.
  - rewrite Hbr' by (vm_compute; reflexivity). reflexivity.
  - apply Hdc. vm_compute. reflexivity.
  - rewrite Hdc' by (vm_compute; reflexivity). reflexivity.
Defined.

(** ** Bateman coefficient solver *)

Section Solver.
Context (P : provider) (np_sum : list float → float).

Lemma last_map {A B : Type} (f : A → B) (l : list A) :
  last (map f l) = f <$> last l.
Proof. exact (fmap_last f l). Qed.

(** The solver on a non-empty chain, as a cascade of its three guards. *)
Lemma k_a_cascade (chain : list Z) :
  chain ≠ [] →
  k_a P np_sum chain =
    if existsb is_nan (map (data.decay_const P) chain) then Ret None
    else if existsb is_infinity (raw_amplitudes P chain) then Ret None
    else if (gamma P chain =? 0)%float then Ret None
    else
      let mask := half_life_mask np_sum (map (data.half_life P) chain)
                    (chain_ends_stable P chain) in
      Ret (Some (select mask (full_k P chain), select mask (full_a P chain))).
Proof.
  intros Hne. unfold k_a, raw_amplitudes, full_k, full_a, chain_ends_stable.
  unfold raw_amplitudes. rewrite last_map, map_map.
  destruct (last chain) as [n|] eqn:Hlast; [done|].
  by apply last_None in Hlast.
Qed.

Lemma k_a_solved_inv (chain : list Z) (k a : list float) :
  chain ≠ [] →
  k_a P np_sum chain = Ret (Some (k, a)) →
  let mask := half_life_mask np_sum (map (data.half_life P) chain)
                (chain_ends_stable P chain) in
  k = select mask (full_k P chain) ∧ a = select mask (full_a P chain).
Proof.
  intros Hne. rewrite (k_a_cascade _ Hne).
  repeat (match goal with |- context [if ?b then _ else _] =>
            destruct b; [discriminate|] end).
  by intros [= <- <-].
Qed.

End Solver.

(** C4. On a chain (a non-empty tuple) the solver returns [(None, None)]
    exactly when a decay constant is not a number, or an amplitude is
    infinite, or the product of the branch ratios is zero; otherwise it
    returns a coefficient pair. *)
Theorem k_a_unsolvable_iff (P : provider) (np_sum : list float → float)
    (chain : list Z) :
  chain ≠ [] →
  (k_a P np_sum chain = Ret None
   ↔ existsb is_nan (map (data.decay_const P) chain) = true
     ∨ existsb is_infinity (raw_amplitudes P chain) = true
     ∨ (gamma P chain =? 0)%float = true)
  ∧ (k_a P np_sum chain ≠ Ret None →
     ∃ k a, k_a P np_sum chain = Ret (Some (k, a))).
Proof.
  intros Hne. rewrite (k_a_cascade _ _ _ Hne).
  destruct (existsb is_nan _); [split; [split|]; [by left|done|done]|].
  destruct (existsb is_infinity _);
    [split; [split|]; [by right; left|done|done]|].
  destruct (gamma P chain =? 0)%float;
    [split; [split|]; [by right; right|done|done]|].
  split; [split|]; [done| |by eauto].
  intros [?|[?|?]]; discriminate.
Qed.

Lemma k_a_unsolvable_iff_witness :
  (k_a (two_species 1 0.6931471805599453 0) sum_left [1; 2] = Ret None
   ↔ existsb is_nan
       (map (data.decay_const (two_species 1 0.6931471805599453 0)) [1; 2])
       = true
     ∨ existsb is_infinity
         (raw_amplitudes (two_species 1 0.6931471805599453 0) [1; 2]) = true
     ∨ PrimFloat.eqb (gamma (two_species 1 0.6931471805599453 0) [1; 2])
         0%float = true)
  ∧ (k_a (two_species 1 0.6931471805599453 0) sum_left [1; 2] ≠ Ret None →
     ∃ k a, k_a (two_species 1 0.6931471805599453 0) sum_left [1; 2]
            = Ret (Some (k, a))).
Proof.
  apply (k_a_unsolvable_iff (two_species 1 0.6931471805599453 0) sum_left
           [1; 2]).
  discriminate.
Defined.

(** *** The ratio matrix and its column products *)

Lemma lookup_map {A B : Type} (f : A → B) (l : list A) (i : nat) :
  map f l !! i = f <$> l !! i.
Proof. exact (list_lookup_fmap f l i). Qed.

Lemma lookup_map_seq {B : Type} (f : nat → B) (n i : nat) :
  (i < n)%nat → map f (seq 0 n) !! i = Some (f i).
Proof. intros Hi. by rewrite lookup_map, lookup_seq_lt. Qed.

Lemma lookup_nth (l : list float) (i : nat) :
  (i < length l)%nat → l !! i = Some (nth i l 0%float).
Proof.
  intros Hi. destruct (nth_lookup_or_length l i 0%float); [done|lia].
Qed.

Lemma cij_matrix_row (dc : list float) (st : bool) (i : nat) :
  (i < length dc)%nat →
  cij_matrix dc st !! i =
    Some (<[i := 1%float]>
            (if st && (i =? Nat.pred (length dc))%nat
             then map (λ d, (-1) / d)%float dc
             else map (λ dj, nth i dc 0 / (nth i dc 0 - dj))%float dc)).
Proof.
  intros Hi. unfold cij_matrix. rewrite list_lookup_imap.
  assert (Hraw : map (λ di, map (λ dj, di / (di - dj))%float dc) dc !! i
                 = Some (map (λ dj, nth i dc 0 / (nth i dc 0 - dj))%float dc)).
  { by rewrite lookup_map, lookup_nth. }
  destruct st; cbn [andb]; [|by rewrite Hraw].
  rewrite length_map.
  destruct (Nat.eqb_spec i (Nat.pred (length dc))) as [Heq|Hne].
  - rewrite <- Heq. rewrite list_lookup_insert_eq; [done|].
    by rewrite length_map.
  - rewrite list_lookup_insert_ne by done. by rewrite Hraw.
Qed.

Lemma cij_matrix_table (dc : list float) (st : bool) :
  cij_matrix dc st =
    map (λ i, map (λ j, cij_entry dc st i j) (seq 0 (length dc)))
        (seq 0 (length dc)).
Proof.
  apply (list_eq_same_length _ _ (length dc)).
  { by rewrite length_map, length_seq. }
  { unfold cij_matrix. rewrite length_imap. destruct st.
    - by rewrite length_insert, length_map.
    - by rewrite length_map. }
  intros i rowL rowR Hi. rewrite cij_matrix_row, lookup_map_seq by done.
  intros [= <-] [= <-].
  apply (list_eq_same_length _ _ (length dc)).
  { by rewrite length_map, length_seq. }
  { rewrite length_insert. destruct (st && _); by rewrite length_map. }
  intros j x y Hj. rewrite lookup_map_seq by done. intros Hx [= <-].
  unfold cij_entry. destruct (Nat.eqb_spec i j) as [->|Hij].
  - rewrite list_lookup_insert_eq in Hx; [congruence|].
    destruct (st && _); by rewrite length_map.
  - rewrite list_lookup_insert_ne in Hx by done.
    destruct (st && _); rewrite lookup_map, lookup_nth in Hx by done;
      by injection Hx as <-.
Qed.

Lemma fold_zip_with_column (e : nat → nat → float) (n j : nat) :
  (j < n)%nat →
  ∀ (rows : list nat) (acc : list float) (x : float),
    acc !! j = Some x →
    fold_left (zip_with mul) (map (λ i, map (e i) (seq 0 n)) rows) acc !! j
    = Some (fold_left mul (map (λ i, e i j) rows) x).
Proof.
  intros Hj rows. induction rows as [|i rows IH]; intros acc x Hx; [done|].
  cbn [map fold_left]. apply IH.
  by rewrite lookup_zip_with, Hx, lookup_map_seq.
Qed.

Lemma fold_zip_with_length (n : nat) :
  ∀ (rows : list (list float)) (acc : list float),
    Forall (λ row, length row = n) rows → length acc = n →
    length (fold_left (zip_with mul) rows acc) = n.
Proof.
  induction rows as [|row rows IH]; intros acc Hrows Hacc; [done|].
  apply Forall_cons in Hrows as [Hrow Hrows]. cbn [fold_left].
  apply IH; [done|]. rewrite length_zip_with. lia.
Qed.

(** C2, amended. The matrix of the solver has ones on its diagonal, the
    row of the terminal nuclide holds [-1/dc[j]] when that nuclide is
    stable, every other entry [(i, j)] is [dc[i] / (dc[i] - dc[j])]; and
    the coefficient [ci[j]] is the product of column [j] of the matrix. *)
Theorem ci_is_column_product (P : provider) (chain : list Z) :
  let dc := map (data.decay_const P) chain in
  let st := chain_ends_stable P chain in
  let n := length chain in
  (∀ i j, (i < n)%nat → (j < n)%nat →
     cij_matrix dc st !! i ≫= (.!! j) = Some (cij_entry dc st i j))
  ∧ (∀ j, (j < n)%nat →
       prod_axis0 n (cij_matrix dc st) !! j
       = Some (np_prod (map (λ i, cij_entry dc st i j) (seq 0 n)))).
Proof.
  intros dc st n. assert (Hn : length dc = n) by apply length_map.
  rewrite cij_matrix_table, Hn. split.
  - intros i j Hi Hj. rewrite lookup_map_seq by done. cbn [mbind option_bind].
    by apply lookup_map_seq.
  - intros j Hj. unfold prod_axis0, np_prod.
    apply fold_zip_with_column; [done|]. by apply lookup_replicate_2.
Qed.

Lemma ci_is_column_product_witness :
  cij_matrix [0.6931471805599453; 0]%float true !! 1%nat ≫= (.!! 0%nat)
    = Some ((-1) / 0.6931471805599453)%float
  ∧ prod_axis0 2 (cij_matrix [0.6931471805599453; 0]%float true) !! 0%nat
    = Some (1 * 1 * ((-1) / 0.6931471805599453))%float.
Proof.
  destruct (ci_is_column_product (two_species 1 0.6931471805599453 1) [1; 2])
    as [Hentry Hcol].
  split.
  - exact (Hentry 1%nat 0%nat ltac:(cbn; lia) ltac:(cbn; lia)).
  - exact (Hcol 0%nat ltac:(cbn; lia)).
Defined.

(** The coefficient is not the product of a row: for the parent of
    [two_species] the row product is [1] and [ci[0]] is [-1/dc[0]]. *)
Lemma ci_is_not_row_product :
  prod_axis0 2
    (cij_matrix
       (map (data.decay_const (two_species 1 0.6931471805599453 1)) [1; 2])
       (chain_ends_stable (two_species 1 0.6931471805599453 1) [1; 2]))
    !! 0%nat
  ≠ Some (np_prod
            (map (λ j, cij_entry
                         (map (data.decay_const
                                 (two_species 1 0.6931471805599453 1)) [1; 2])
                         (chain_ends_stable
                            (two_species 1 0.6931471805599453 1) [1; 2])
                         0 j)
                 (seq 0 2))).
Proof.
  intros H.
  apply (f_equal (λ o, match o with
                       | Some v => (v =? 1)%float
                       | None => false
                       end)) in H.
  vm_compute in H. discriminate H.
Qed.

(** *** Pruning *)

Lemma select_length {A : Type} : ∀ (msk : list bool) (x : list A),
  length msk = length x → length (select msk x) = count_true msk.
Proof.
  unfold count_true. induction msk as [|b msk IH]; intros [|v x] Hlen;
    try done.
  injection Hlen as Hlen. cbn [select List.filter].
  destruct b; cbn [id length]; by rewrite IH.
Qed.

Lemma select_all {A : Type} : ∀ (x : list A),
  select (replicate (length x) true) x = x.
Proof. induction x as [|v x IH]; [done|]. cbn. by rewrite IH. Qed.

Lemma count_true_replicate (n : nat) : count_true (replicate n true) = n.
Proof.
  unfold count_true. induction n as [|n IH]; [done|]. cbn. by rewrite IH.
Qed.

Lemma select_last {A : Type} : ∀ (msk : list bool) (x : list A),
  length msk = length x → last msk = Some true →
  last (select msk x) = last x.
Proof.
  induction msk as [|b msk IH]; intros [|v x] Hlen Hlast; try done.
  injection Hlen as Hlen. destruct msk as [|b' msk].
  - destruct x; [|done]. by injection Hlast as ->.
  - destruct x as [|v' x]; [done|].
    rewrite last_cons_cons in Hlast. specialize (IH (v' :: x) Hlen Hlast).
    rewrite last_cons_cons. cbn [select] in *. destruct b; [|done].
    rewrite last_cons, IH. destruct (last (v' :: x)) eqn:E; [done|].
    by apply last_None in E.
Qed.

Lemma select_elem_of {A : Type} : ∀ (msk : list bool) (x : list A) (v : A),
  v ∈ select msk x → v ∈ x.
Proof.
  induction msk as [|b msk IH]; intros x v Hv;
    [by apply elem_of_nil in Hv|].
  destruct x as [|w x]; [by apply elem_of_nil in Hv|].
  cbn [select] in Hv. destruct b.
  - apply elem_of_cons in Hv as [->|Hv]; [left|right; by apply IH].
  - right. by apply IH.
Qed.

Lemma removelast_length_S {A : Type} (l : list A) :
  l ≠ [] → S (length (removelast l)) = length l.
Proof.
  intros Hne. destruct (last l) as [x|] eqn:Hlast;
    [|by apply last_None in Hlast].
  apply last_Some in Hlast as [l' ->].
  rewrite removelast_last, length_app. cbn. lia.
Qed.

Lemma half_life_mask_length np_sum (hl : list float) (st : bool) :
  length (half_life_mask np_sum hl st) = length hl.
Proof.
  unfold half_life_mask, half_life_filter.
  destruct (_ <? 2)%nat eqn:Hcount; [by rewrite length_replicate|].
  destruct st; [|by rewrite length_map].
  destruct hl as [|h hl]; [by cbn in Hcount|].
  rewrite length_app, length_map.
  pose proof (removelast_length_S (h :: hl)) as Hlen. cbn [length] in *.
  rewrite <- Hlen by done. lia.
Qed.

Lemma half_life_mask_count np_sum (hl : list float) (st : bool) :
  (2 ≤ length hl)%nat → (2 ≤ count_true (half_life_mask np_sum hl st))%nat.
Proof.
  intros Hlen. unfold half_life_mask.
  destruct (_ <? 2)%nat eqn:Hcount.
  - by rewrite count_true_replicate.
  - by apply Nat.ltb_ge in Hcount.
Qed.

Lemma half_life_mask_last np_sum (hl : list float) :
  hl ≠ [] → last (half_life_mask np_sum hl true) = Some true.
Proof.
  intros Hne. unfold half_life_mask, half_life_filter.
  destruct (_ <? 2)%nat; [|apply last_snoc].
  destruct hl as [|h hl]; [done|]. cbn [length].
  rewrite last_lookup, length_replicate. apply lookup_replicate_2.
  cbn [Nat.pred]. lia.
Qed.

Lemma amplitudes_length (dc : list float) (dc_last : float) (st : bool) :
  length (amplitudes dc dc_last st) = length dc.
Proof.
  assert (Hci : length (prod_axis0 (length dc) (cij_matrix dc st))
                = length dc).
  { apply fold_zip_with_length; [|apply length_replicate].
    rewrite cij_matrix_table. apply Forall_forall. intros row Hrow.
    apply list_elem_of_In, in_map_iff in Hrow. destruct Hrow as (i & <- & _).
    by rewrite length_map, length_seq. }
  unfold amplitudes. destruct st.
  - rewrite length_insert, length_zip_with. lia.
  - rewrite length_zip_with, length_map. lia.
Qed.

Lemma full_k_length (P : provider) (chain : list Z) :
  length (full_k P chain) = length chain.
Proof.
  unfold full_k, raw_amplitudes. rewrite length_map, last_map.
  destruct (last chain) as [n|] eqn:Hlast; cbn.
  - by rewrite amplitudes_length, length_map.
  - apply last_None in Hlast. by subst.
Qed.

Lemma full_a_length (P : provider) (chain : list Z) :
  length (full_a P chain) = length chain.
Proof. apply length_map. Qed.

(** C5. A solved chain of at least two nuclides comes back with at least
    two terms; when the half-life filter keeps fewer than two terms the
    unpruned arrays are returned; and the term of a stable terminal
    nuclide is always kept. *)
Theorem k_a_keeps_two_terms (P : provider) (np_sum : list float → float)
    (chain : list Z) (k a : list float) :
  (2 ≤ length chain)%nat →
  k_a P np_sum chain = Ret (Some (k, a)) →
  (2 ≤ length k)%nat ∧ length a = length k
  ∧ ((count_true (half_life_filter np_sum (map (data.half_life P) chain)
                    (chain_ends_stable P chain)) < 2)%nat →
     k = full_k P chain ∧ a = full_a P chain)
  ∧ (chain_ends_stable P chain = true →
     last k = last (full_k P chain) ∧ last a = last (full_a P chain)).
Proof.
  intros Hlen Hsolved.
  assert (Hne : chain ≠ []) by (intros ->; cbn in Hlen; lia).
  destruct (k_a_solved_inv _ _ _ _ _ Hne Hsolved) as [-> ->].
  pose proof (half_life_mask_length np_sum (map (data.half_life P) chain)
                (chain_ends_stable P chain)) as Hmask.
  rewrite length_map in Hmask.
  rewrite !select_length
    by (by rewrite Hmask, ?full_k_length, ?full_a_length).
  split; [|split; [done|split]].
  - apply half_life_mask_count. by rewrite length_map.
  - intros Hcount. apply Nat.ltb_lt in Hcount. unfold half_life_mask.
    rewrite Hcount, length_map.
    split.
    + rewrite <- (full_k_length P chain) at 1. by rewrite select_all.
    + rewrite <- (full_a_length P chain) at 1. by rewrite select_all.
  - intros Hst. rewrite Hst in *.
    assert (Hhl : map (data.half_life P) chain ≠ [])
      by (by destruct chain).
    split; apply select_last;
      by rewrite ?Hmask, ?full_k_length, ?full_a_length,
                 ?(half_life_mask_last _ _ Hhl).
Qed.

Lemma k_a_keeps_two_terms_witness :
  (count_true
     (half_life_filter sum_left (map (data.half_life fast_parent) [1; 2])
        (chain_ends_stable fast_parent [1; 2])) = 1%nat
   ∧ [-1.0000000001; 1.0000000001]%float = full_k fast_parent [1; 2]
   ∧ [-10000000000; -1]%float = full_a fast_parent [1; 2])
  ∧ (length (full_k fast_parent [1; 2; 3]) = 3%nat
     ∧ le 2 (length [-1.0000000001; 1]%float)
     ∧ length [-1; -0]%float = length [-1.0000000001; 1]%float
     ∧ last [-1.0000000001; 1]%float = last (full_k fast_parent [1; 2; 3])
     ∧ last [-1; -0]%float = last (full_a fast_parent [1; 2; 3])).
Proof.
  destruct (k_a_keeps_two_terms fast_parent sum_left [1; 2]
              [-1.0000000001; 1.0000000001]%float [-10000000000; -1]%float)
    as (_ & _ & Hrestore & _);
    [cbn; lia|vm_compute; reflexivity|].
  destruct (k_a_keeps_two_terms fast_parent sum_left [1; 2; 3]
              [-1.0000000001; 1]%float [-1; -0]%float)
    as (Htwo & Hlen & _ & Hstable);
    [cbn; lia|vm_compute; reflexivity|].
  split.
  - split; [vm_compute; reflexivity|].
    apply Hrestore. vm_compute. lia.
  - split; [vm_compute; reflexivity|]. split; [exact Htwo|].
    split; [exact Hlen|]. apply Hstable. vm_compute. reflexivity.
Defined.

(** The returned rates are not the negated decay constants: for a parent
    with half-life [1] and decay constant [ln 2] the solver returns the
    rate [-1]. *)
Lemma rates_are_not_negated_decay_consts :
  ∃ k a,
    k_a (two_species 1 0.6931471805599453 1) sum_left [1; 2]
      = Ret (Some (k, a))
    ∧ a ≠ map (λ n, - data.decay_const
                        (two_species 1 0.6931471805599453 1) n)%float
              [1; 2].
Proof.
  exists [-1; 1]%float, [-1; -0]%float. split; [vm_compute; reflexivity|].
  intros H.
  apply (f_equal (λ l, match l with
                       | x :: _ => (x =? -1)%float
                       | [] => false
                       end)) in H.
  vm_compute in H. discriminate H.
Qed.

(** C3, amended. The rates returned for a solved chain are the entries
    [-1/half_life] of the chain's nuclides that the pruning mask keeps:
    exponents of the base-two exponential [exp2], not negated decay
    constants. *)
Theorem k_a_rates_are_inverse_half_lives (P : provider)
    (np_sum : list float → float) (chain : list Z) (k a : list float) :
  chain ≠ [] →
  k_a P np_sum chain = Ret (Some (k, a)) →
  a = select (half_life_mask np_sum (map (data.half_life P) chain)
                (chain_ends_stable P chain))
             (map (λ n, (-1) / data.half_life P n)%float chain)
  ∧ (∀ a_i, a_i ∈ a →
       ∃ n, n ∈ chain ∧ a_i = ((-1) / data.half_life P n)%float).
Proof.
  intros Hne Hsolved.
  destruct (k_a_solved_inv _ _ _ _ _ Hne Hsolved) as [_ ->].
  split; [done|]. intros a_i Hin. apply select_elem_of in Hin.
  apply list_elem_of_In, in_map_iff in Hin. destruct Hin as (n & <- & Hn).
  exists n. by split; [apply list_elem_of_In|].
Qed.

Lemma k_a_rates_are_inverse_half_lives_witness :
  [-1; -0]%float
  = select (half_life_mask sum_left
              (map (data.half_life (two_species 1 0.6931471805599453 1))
                   [1; 2])
              (chain_ends_stable (two_species 1 0.6931471805599453 1) [1; 2]))
           (map (λ n, (-1) / data.half_life
                               (two_species 1 0.6931471805599453 1) n)%float
                [1; 2])
  ∧ (∀ a_i, a_i ∈ [-1; -0]%float →
       ∃ n, n ∈ [1; 2]
            ∧ a_i = ((-1) / data.half_life
                              (two_species 1 0.6931471805599453 1) n)%float).
Proof.
  apply (k_a_rates_are_inverse_half_lives
           (two_species 1 0.6931471805599453 1) sum_left [1; 2]
           [-1; 1]%float).
  - discriminate.
  - vm_compute. reflexivity.
Defined.

(** *** The two-nuclide chain *)

Lemma raw_amplitudes_two (P : provider) (p d : Z) :
  data.decay_const P d = 0%float →
  raw_amplitudes P [p; d]
  = [data.decay_const P p * (1 * ((-1) / data.decay_const P p)); 1]%float.
Proof.
  intros Hd. unfold raw_amplitudes. cbn [map last]. rewrite Hd.
  change (0 <? 1e-16)%float with true. cbv beta iota.
  unfold amplitudes, prod_axis0, cij_matrix. by cbn.
Qed.

Lemma half_life_mask_two np_sum (h1 h2 : float) :
  half_life_mask np_sum [h1; h2] true = [true; true].
Proof.
  unfold half_life_mask, half_life_filter. cbn [removelast map app].
  by destruct (_ <? _)%float.
Qed.

(** A parent with a stable daughter, solved for any decay constant of the
    parent: the first amplitude is the rounded product [lam * (-1/lam)]
    scaled by [gamma]. *)
Lemma k_a_two (P : provider) (np_sum : list float → float) (p d : Z) :
  data.decay_const P d = 0%float →
  is_nan (data.decay_const P p) = false →
  is_infinity (data.decay_const P p * (1 * ((-1) / data.decay_const P p)))
    = false →
  (gamma P [p; d] =? 0)%float = false →
  k_a P np_sum [p; d] =
    Ret (Some
      ([data.decay_const P p * (1 * ((-1) / data.decay_const P p))
          * gamma P [p; d];
        1 * gamma P [p; d]%Z]%float,
       [(-1) / data.half_life P p; (-1) / data.half_life P d]%float)).
Proof.
  intros Hd Hnan Hinf Hgamma. rewrite k_a_cascade by done.
  unfold full_k, full_a, chain_ends_stable.
  rewrite raw_amplitudes_two by done. cbn [map last existsb].
  rewrite Hd, Hnan, Hinf, Hgamma.
  change (is_nan 0) with false. change (is_infinity 1) with false.
  change (0 <? 1e-16)%float with true. cbn [orb].
  by rewrite half_life_mask_two.
Qed.

(** In binary64 the product [lam * (-1/lam)] is the rounded one: for the
    decay constant [49] the first amplitude is the float next to [-1]. *)
Lemma two_species_amplitude_is_rounded :
  ∃ k a,
    k_a (two_species 0.014145860827753986 49 1) sum_left [1; 2]
      = Ret (Some (k, a))
    ∧ k ≠ [(-1) * gamma (two_species 0.014145860827753986 49 1) [1; 2]%Z;
           1 * gamma (two_species 0.014145860827753986 49 1) [1; 2]%Z]%float.
Proof.
  exists [-0.99999999999999989; 1]%float,
         [(-1) / 0.014145860827753986; -0]%float.
  split; [vm_compute; reflexivity|]. intros H.
  apply (f_equal (λ l, match l with
                       | x :: _ => (x =? -1)%float
                       | [] => false
                       end)) in H.
  vm_compute in H. discriminate H.
Qed.

(** The two-nuclide chain in binary64. For a parent whose daughter is
    stable (decay constant zero, infinite half-life) [k_a] returns the
    amplitudes [[lam * (-1/lam), 1]] scaled by [gamma], the product being
    the binary64 one, and the rates [[-1/half_life, -0]]. When that
    product is [-1] and the branch ratio is one, the text that [chainexpr]
    emits for the daughter is [-1*exp2(-t/half_life) + 1.0]; the parent's
    own chain is the single term [exp2(-t/half_life)]. *)
Lemma two_species_chain (P : provider) (np_sum : list float → float)
    (fmt_e : float → string) (p d : Z) :
  data.decay_const P d = 0%float →
  data.half_life P d = infinity →
  is_nan (data.decay_const P p) = false →
  is_infinity (data.decay_const P p * (1 * ((-1) / data.decay_const P p)))
    = false →
  (gamma P [p; d] =? 0)%float = false →
  k_a P np_sum [p; d] =
    Ret (Some
      ([data.decay_const P p * (1 * ((-1) / data.decay_const P p))
          * gamma P [p; d];
        1 * gamma P [p; d]%Z]%float,
       [(-1) / data.half_life P p; -0]%float))
  ∧ ((data.decay_const P p * (1 * ((-1) / data.decay_const P p)))%float
       = (-1)%float →
     k_a P np_sum [p; d] =
       Ret (Some ([(-1) * gamma P [p; d]; 1 * gamma P [p; d]]%float,
                  [(-1) / data.half_life P p; -0]%float))
     ∧ (branch_ratio P p d = 1%float →
        chainexpr P np_sum fmt_e [p; d]
        = Ret (Some (CHAIN_EXPR
                       (KEXP_EXPR fmt_e (-1) ((-1) / data.half_life P p)
                        +:+ " + " +:+ "1.0")))))
  ∧ ((data.half_life P p =? 0)%float = false →
     chainexpr P np_sum fmt_e [p]
     = Ret (Some (CHAIN_EXPR (EXP_EXPR fmt_e ((-1) / data.half_life P p))))).
Proof.
  intros Hd Hhl Hnan Hinf Hgamma.
  pose proof (k_a_two P np_sum p d Hd Hnan Hinf Hgamma) as Hk.
  rewrite Hhl in Hk. change ((-1) / infinity)%float with (-0)%float in Hk.
  split; [done|split].
  - intros Hexact. rewrite Hexact in Hk. split; [done|].
    intros Hbr. unfold chainexpr. cbn [last length Nat.eqb]. rewrite Hk.
    assert (Hg : gamma P [p; d] = 1%float).
    { unfold gamma, np_prod. cbn [removelast tail zip_with fold_left].
      by rewrite Hbr. }
    rewrite Hg. reflexivity.
  - intros Hp. unfold chainexpr, float_div. cbn [last length Nat.eqb].
    by rewrite Hp.
Qed.

Lemma two_species_chain_witness :
  k_a (two_species 1 0.6931471805599453 1) sum_left [1; 2]
    = Ret (Some ([-1; 1]%float, [-1; -0]%float))
  ∧ chainexpr (two_species 1 0.6931471805599453 1) sum_left fmt_e_sample
      [1; 2]
    = Ret (Some "(it->second) * (-1.000000e+00*exp2(-1.000000e+00*t) + 1.0)")
  ∧ chainexpr (two_species 1 0.6931471805599453 1) sum_left fmt_e_sample [1]
    = Ret (Some "(it->second) * (exp2(-1.000000e+00*t))").
Proof.
  destruct (two_species_chain (two_species 1 0.6931471805599453 1) sum_left
              fmt_e_sample 1 2) as (Hk & Hexact & Hown);
    try (vm_compute; reflexivity).
  destruct Hexact as [_ Hexpr]; [vm_compute; reflexivity|].
  split; [|split].
  - rewrite Hk. vm_compute. reflexivity.
  - rewrite Hexpr by (vm_compute; reflexivity). vm_compute. reflexivity.
  - rewrite Hown by (vm_compute; reflexivity). vm_compute. reflexivity.
Defined.

(** ** Expression synthesizer *)

(** C9. A coefficient pair is written [exp2(a*t)] when [k] is one and
    [k*exp2(a*t)] otherwise; a chain of one nuclide is the single term
    [exp2(a*t)] with [a = -1/half_life] and no amplitude; and in a longer
    chain a pair with amplitude one and rate zero is written as the
    constant [1.0], the terms being joined by [" + "]. *)
Theorem synthesizer_terms (P : provider) (np_sum : list float → float)
    (fmt_e : float → string) :
  (∀ k a,
     kexpexpr fmt_e k a
     = if (k =? 1)%float then "exp2(" +:+ fmt_e a +:+ "*t)"
       else fmt_e k +:+ "*exp2(" +:+ fmt_e a +:+ "*t)")
  ∧ (∀ n,
       (data.half_life P n =? 0)%float = false →
       chainexpr P np_sum fmt_e [n]
       = Ret (Some (CHAIN_EXPR
                      ("exp2(" +:+ fmt_e ((-1) / data.half_life P n)%float
                       +:+ "*t)"))))
  ∧ (∀ chain k a,
       (2 ≤ length chain)%nat →
       k_a P np_sum chain = Ret (Some (k, a)) →
       chainexpr P np_sum fmt_e chain
       = Ret (Some (CHAIN_EXPR
                      (str_join " + " (zip_with (chain_term fmt_e) k a)))))
  ∧ (∀ k_i a_i,
       chain_term fmt_e k_i a_i
       = if (k_i =? 1)%float && (a_i =? 0)%float then "1.0"
         else kexpexpr fmt_e k_i a_i).
Proof.
  split; [|split; [|split]].
  - intros k a. unfold kexpexpr, KEXP_EXPR, EXP_EXPR. by destruct (k =? 1)%float.
  - intros n Hn. unfold chainexpr, float_div. cbn [last length Nat.eqb].
    by rewrite Hn.
  - intros chain k a Hlen Hk. unfold chainexpr.
    destruct chain as [|n1 [|n2 chain]]; [cbn in Hlen; lia..|].
    destruct (last (n1 :: n2 :: chain)) as [child|] eqn:Hlast;
      [|by apply last_None in Hlast].
    cbn [length Nat.eqb]. by rewrite Hk.
  - done.
Qed.

Lemma synthesizer_terms_witness :
  chainexpr (two_species 1 0.6931471805599453 1) sum_left fmt_e_sample [1]
  = Ret (Some "(it->second) * (exp2(-1.000000e+00*t))")
  ∧ chainexpr (two_species 1 0.6931471805599453 1) sum_left fmt_e_sample
      [1; 2]
    = Ret (Some "(it->second) * (-1.000000e+00*exp2(-1.000000e+00*t) + 1.0)").
Proof.
  destruct (synthesizer_terms (two_species 1 0.6931471805599453 1) sum_left
              fmt_e_sample) as (_ & Hone & Hmany & _).
  split.
  - rewrite Hone by (vm_compute; reflexivity). vm_compute. reflexivity.
  - rewrite (Hmany [1; 2] [-1; 1]%float [-1; -0]%float)
      by (cbn; lia || (vm_compute; reflexivity)).
    vm_compute. reflexivity.
Defined.

(** * Further properties of the enumerator *)

Section EnumeratorMore.
Context (P : provider).

Lemma child_of_spec (x y : Z) :
  child_of P x y
  ↔ y ∈ decay_children P x ∧ (0 =? data.fpyield P x y)%float = true.
Proof.
  unfold child_of, filtered_children.
  rewrite elem_of_elements, elem_of_filter. tauto.
Qed.

Lemma filtered_children_NoDup (x : Z) : NoDup (filtered_children P x).
Proof. apply NoDup_elements. Qed.

Lemma is_path_lookup : ∀ p x i a b,
  is_path P x p → (x :: p) !! i = Some a → (x :: p) !! S i = Some b →
  child_of P a b.
Proof.
  induction p as [|y p IH]; intros x i a b Hp Ha Hb.
  - destruct i; discriminate Hb.
  - destruct Hp as [Hxy Hp]. destruct i as [|i].
    + by injection Ha as <-; injection Hb as <-.
    + by apply (IH y i).
Qed.

Lemma is_path_snoc : ∀ p x z y,
  is_path P x p → last (x :: p) = Some z → child_of P z y →
  is_path P x (p ++ [y]).
Proof.
  induction p as [|w p IH]; intros x z y Hp Hlast Hzy.
  - injection Hlast as <-. by split.
  - destruct Hp as [Hxw Hp]. split; [done|].
    apply (IH w z); [done| |done]. by rewrite last_cons_cons in Hlast.
Qed.

Lemma extensions_complete n : ∀ x p,
  enough P n x = true → p ≠ [] → is_path P x p → p ∈ extensions P n x.
Proof.
  induction n as [|n IH]; intros x p Hen Hne Hp; [done|].
  destruct p as [|y p]; [done|]. destruct Hp as [Hxy Hp].
  destruct (enough_child _ _ _ _ Hen Hxy) as (n' & [= <-] & Hy).
  cbn [extensions]. apply list_elem_of_In, in_flat_map.
  exists y. split; [by apply list_elem_of_In|].
  apply list_elem_of_In. destruct p as [|z p]; [by left|].
  right. apply list_elem_of_In, in_map, list_elem_of_In. by apply IH.
Qed.

Lemma genchains_seed_inv (depth : nat) (seed : Z) (out : list (list Z)) :
  genchains P depth [[seed]] = Ret out →
  enough P depth seed = true
  ∧ out = [seed] :: map (cons seed) (extensions P depth seed).
Proof.
  intros H. apply genchains_ret_inv in H.
  by destruct H as (chain & x & [= <-] & [= <-] & Hen & ->).
Qed.

Lemma elem_of_seed_out (depth : nat) (seed : Z) (c : list Z) :
  c ∈ [seed] :: map (cons seed) (extensions P depth seed)
  ↔ ∃ p, c = seed :: p ∧ (p = [] ∨ p ∈ extensions P depth seed).
Proof.
  rewrite elem_of_cons. split.
  - intros [->|Hc]; [exists []; by split; [|left]|].
    apply list_elem_of_In, in_map_iff in Hc. destruct Hc as (p & <- & Hp).
    exists p. split; [done|]. right. by apply list_elem_of_In.
  - intros (p & -> & [->|Hp]); [by left|].
    right. by apply list_elem_of_In, in_map, list_elem_of_In.
Qed.

(** Every chain of the output starts at the seed and moves, at each step,
    from a nuclide to one of its decay children whose fission-product
    yield from it is zero. *)
Theorem genchains_chains_are_decay_paths (depth : nat) (seed : Z)
    (out : list (list Z)) :
  genchains P depth [[seed]] = Ret out →
  ∀ c, c ∈ out →
    head c = Some seed
    ∧ (∀ i x y, c !! i = Some x → c !! S i = Some y →
         y ∈ decay_children P x
         ∧ (0 =? data.fpyield P x y)%float = true).
Proof.
  intros H c Hc. apply genchains_seed_inv in H as [_ ->].
  apply elem_of_seed_out in Hc as (p & -> & Hp). split; [done|].
  intros i x y Hx Hy. apply child_of_spec.
  apply (is_path_lookup p seed i); [|done..].
  destruct Hp as [->|Hp]; [done|]. by apply extensions_path in Hp as [_ ?].
Qed.

(** The enumeration is complete: the seed chain is in the output, and with
    a chain the output holds its extension by every decay child of its
    last nuclide that has a zero fission-product yield. *)
Theorem genchains_closed_under_extension (depth : nat) (seed : Z)
    (out : list (list Z)) :
  genchains P depth [[seed]] = Ret out →
  [seed] ∈ out
  ∧ (∀ c x y, c ∈ out → last c = Some x →
       y ∈ decay_children P x → (0 =? data.fpyield P x y)%float = true →
       c ++ [y] ∈ out).
Proof.
  intros H. apply genchains_seed_inv in H as [Hen ->].
  split; [by left|]. intros c x y Hc Hlast Hy Hyield.
  assert (Hxy : child_of P x y) by (by apply child_of_spec).
  apply elem_of_seed_out in Hc as (p & -> & Hp).
  apply elem_of_seed_out. exists (p ++ [y]). split; [done|]. right.
  apply extensions_complete; [done|by destruct p|].
  apply is_path_snoc with x; [|done..].
  destruct Hp as [->|Hp]; [done|]. by apply extensions_path in Hp as [_ ?].
Qed.

Lemma extensions_head n x p :
  p ∈ extensions P n x → ∃ c, head p = Some c ∧ c ∈ filtered_children P x.
Proof.
  destruct n as [|n]; [by intros ?%elem_of_nil|]. cbn [extensions].
  intros Hp. apply list_elem_of_In, in_flat_map in Hp.
  destruct Hp as (c & Hc & Hp). exists c.
  split; [|by apply list_elem_of_In].
  destruct Hp as [<-|Hp]; [done|].
  apply in_map_iff in Hp. by destruct Hp as (q & <- & _).
Qed.

Lemma block_NoDup (c : Z) (E : list (list Z)) :
  NoDup E → (∀ p, p ∈ E → p ≠ []) → NoDup ([c] :: map (cons c) E).
Proof.
  intros HE Hne. apply NoDup_cons. split.
  - intros Hin. apply list_elem_of_In, in_map_iff in Hin.
    destruct Hin as (q & [= ->] & Hq).
    apply (Hne []); [by apply list_elem_of_In|done].
  - by apply (NoDup_fmap_2 (cons c)).
Qed.

Lemma blocks_NoDup (f : Z → list (list Z)) : ∀ l : list Z,
  NoDup l → (∀ c, c ∈ l → NoDup (f c)) →
  (∀ c p, p ∈ f c → head p = Some c) →
  NoDup (flat_map f l).
Proof.
  induction l as [|c l IH]; intros Hl Hf Hhead; [apply NoDup_nil_2|].
  apply NoDup_cons in Hl as [Hc Hl]. cbn [flat_map]. apply NoDup_app.
  split; [apply Hf; by left|]. split.
  - intros p Hp Hp'. apply list_elem_of_In, in_flat_map in Hp'.
    destruct Hp' as (c' & Hc' & Hp'). apply list_elem_of_In in Hc', Hp'.
    apply Hhead in Hp, Hp'. congruence.
  - apply IH; [done| |done]. intros c' Hc'. apply Hf. by right.
Qed.

Lemma extensions_NoDup n : ∀ x, NoDup (extensions P n x).
Proof.
  induction n as [|n IH]; intros x; [apply NoDup_nil_2|].
  cbn [extensions]. apply blocks_NoDup.
  - apply filtered_children_NoDup.
  - intros c _. apply block_NoDup; [apply IH|].
    intros p Hp. by apply extensions_path in Hp as [? _].
  - intros c p Hp. apply elem_of_cons in Hp as [->|Hp]; [done|].
    apply list_elem_of_In, in_map_iff in Hp. by destruct Hp as (q & <- & _).
Qed.

Lemma remove_dups_NoDup (l : list (list Z)) : NoDup l → remove_dups l = l.
Proof.
  induction l as [|c l IH]; intros Hl; [done|].
  apply NoDup_cons in Hl as [Hc Hl]. cbn [remove_dups].
  destruct (decide_rel elem_of c l); [done|]. by rewrite IH.
Qed.

(** The output never holds the same chain twice: the two lengths that
    [gencase] prints, [len(chains)] and [len(set(chains))], are equal. *)
Theorem genchains_no_duplicate_chain (depth : nat) (seed : Z)
    (out : list (list Z)) :
  genchains P depth [[seed]] = Ret out →
  NoDup out ∧ length (remove_dups out) = length out.
Proof.
  intros H. apply genchains_seed_inv in H as [_ ->].
  assert (Hnd : NoDup ([seed] :: map (cons seed) (extensions P depth seed))).
  { apply block_NoDup; [apply extensions_NoDup|].
    intros p Hp. by apply extensions_path in Hp as [? _]. }
  split; [done|]. by rewrite remove_dups_NoDup.
Qed.

Lemma flat_map_ext_elem {A B : Type} (f g : A → list B) : ∀ l : list A,
  (∀ a, a ∈ l → f a = g a) → flat_map f l = flat_map g l.
Proof.
  induction l as [|a l IH]; intros H; [done|]. cbn [flat_map].
  rewrite (H a) by (by left). f_equal. apply IH. intros b Hb. apply H.
  by right.
Qed.

Lemma extensions_stable n : ∀ x,
  enough P n x = true → extensions P (S n) x = extensions P n x.
Proof.
  induction n as [|n IH]; intros x Hen; [done|].
  change (extensions P (S (S n)) x) with
    (flat_map (λ c, [c] :: map (cons c) (extensions P (S n) c))
       (filtered_children P x)).
  cbn [extensions enough] in *. apply flat_map_ext_elem. intros c Hc.
  rewrite forallb_forall in Hen. rewrite IH; [done|].
  by apply Hen, list_elem_of_In.
Qed.

(** The result does not depend on the stack depth: a call that returns
    with some depth returns the same list with any larger depth. *)
Theorem genchains_depth_irrelevant (depth depth' : nat)
    (chains out : list (list Z)) :
  genchains P depth chains = Ret out →
  (depth ≤ depth')%nat →
  genchains P depth' chains = Ret out.
Proof.
  intros H Hle. induction Hle as [|d Hle IH]; [done|].
  apply genchains_ret_inv in IH.
  destruct IH as (chain & x & Hc & Hx & Hen & ->).
  rewrite (genchains_closed_form P (S d) _ _ _ Hc Hx).
  by rewrite enough_mono, extensions_stable.
Qed.

(** The enumerator raises [IndexError] exactly when it has a stack frame
    and is given no chain or a last chain that is empty; it raises
    [RecursionError] exactly when the stack is too shallow for the last
    nuclide; it raises nothing else. *)
Theorem genchains_raises (depth : nat) (chains : list (list Z)) (e : exn) :
  genchains P depth chains = Raise e ↔
    (e = IndexError ∧ depth ≠ O ∧ (chains = [] ∨ last chains = Some []))
    ∨ (e = RecursionError
       ∧ (depth = O
          ∨ ∃ chain x, last chains = Some chain ∧ last chain = Some x
                       ∧ enough P depth x = false)).
Proof.
  destruct depth as [|depth].
  { cbn [genchains]. split.
    - intros [= <-]. right. split; [done|by left].
    - intros [(_ & ? & _)|(-> & _)]; done. }
  destruct (last chains) as [chain|] eqn:Hc.
  2:{ cbn [genchains]. rewrite Hc. apply last_None in Hc as ->. split.
      - intros [= <-]. left. split; [done|]. split; [done|by left].
      - intros [(-> & _)|(_ & [?|(? & ? & ? & _)])]; done. }
  destruct (last chain) as [x|] eqn:Hx.
  2:{ cbn [genchains]. rewrite Hc, Hx. apply last_None in Hx as ->. split.
      - intros [= <-]. left. split; [done|]. split; [done|by right].
      - intros [(-> & _)|(_ & [?|(? & ? & [= <-] & ? & _)])]; done. }
  rewrite (genchains_closed_form P (S depth) _ _ _ Hc Hx).
  destruct (enough P (S depth) x) eqn:Hen; split.
  - done.
  - intros [(_ & _ & [->|[= ->]])|(_ & [?|(? & ? & [= <-] & Hx' & He)])];
      try done. congruence.
  - intros [= <-]. right. split; [done|]. right. by exists chain, x.
  - intros [(_ & _ & [->|[= ->]])|(-> & _)]; done.
Qed.

End EnumeratorMore.

Lemma diamond_chains :
  genchains diamond 5 [[1]]
  = Ret [[1]; [1; 3]; [1; 3; 4]; [1; 2]; [1; 2; 4]].
Proof. vm_compute. reflexivity. Qed.

Lemma genchains_chains_are_decay_paths_witness :
  head [1; 3; 4] = Some 1
  ∧ 4 ∈ decay_children diamond 3
  ∧ PrimFloat.eqb 0 (data.fpyield diamond 3 4) = true.
Proof.
  destruct (genchains_chains_are_decay_paths diamond 5 1 _ diamond_chains
              [1; 3; 4]) as [Hhead Hstep].
  - apply elem_of_cons. right. apply elem_of_cons. right.
    apply elem_of_cons. by left.
  - split; [exact Hhead|].
    exact (Hstep 1%nat 3 4 eq_refl eq_refl).
Defined.

Lemma genchains_closed_under_extension_witness :
  [1] ∈ [[1]; [1; 3]; [1; 3; 4]; [1; 2]; [1; 2; 4]]
  ∧ [1; 2] ++ [4] ∈ [[1]; [1; 3]; [1; 3; 4]; [1; 2]; [1; 2; 4]].
Proof.
  destruct (genchains_closed_under_extension diamond 5 1 _ diamond_chains)
    as [Hseed Hext].
  split; [exact Hseed|]. apply (Hext [1; 2] 2 4).
  - do 3 (apply elem_of_cons; right). apply elem_of_cons. by left.
  - reflexivity.
  - replace (decay_children diamond 2) with ({[ 4 ]} : gset Z)
      by (vm_compute; reflexivity).
    by apply elem_of_singleton.
  - vm_compute. reflexivity.
Defined.

Lemma genchains_no_duplicate_chain_witness :
  NoDup [[1]; [1; 3]; [1; 3; 4]; [1; 2]; [1; 2; 4]]
  ∧ length (remove_dups [[1]; [1; 3]; [1; 3; 4]; [1; 2]; [1; 2; 4]])
    = length [[1]; [1; 3]; [1; 3; 4]; [1; 2]; [1; 2; 4]].
Proof.
  exact (genchains_no_duplicate_chain diamond 5 1 _ diamond_chains).
Defined.

Lemma genchains_depth_irrelevant_witness :
  genchains diamond 40 [[1]]
  = Ret [[1]; [1; 3]; [1; 3; 4]; [1; 2]; [1; 2; 4]].
Proof.
  apply (genchains_depth_irrelevant diamond 5 40 _ _ diamond_chains). lia.
Defined.

(** * Further properties of the solver *)

Section SolverMore.
Context (P : provider) (np_sum : list float → float).

Lemma removelast_tail_length (chain : list Z) :
  length (removelast chain) = length (tail chain).
Proof.
  destruct chain as [|n chain]; [done|].
  pose proof (removelast_length_S (n :: chain)) as H. cbn [length tail] in *.
  specialize (H ltac:(done)). lia.
Qed.

(** Appending a nuclide to a chain multiplies [gamma] by one more branch
    ratio, that of the old terminal nuclide to the new one. *)
Theorem gamma_snoc (chain : list Z) (x c : Z) :
  last chain = Some x →
  gamma P (chain ++ [c]) = (gamma P chain * branch_ratio P x c)%float.
Proof.
  intros Hlast. apply last_Some in Hlast as [front ->].
  unfold gamma, np_prod. rewrite !removelast_last.
  assert (Htail : tail ((front ++ [x]) ++ [c]) = tail (front ++ [x]) ++ [c])
    by (by destruct front).
  rewrite Htail.
  rewrite <- (removelast_last front x) at 1.
  rewrite zip_with_app by apply removelast_tail_length.
  rewrite removelast_last, fold_left_app. reflexivity.
Qed.

Lemma raw_amplitudes_last_stable (chain : list Z) :
  chain ≠ [] → chain_ends_stable P chain = true →
  last (raw_amplitudes P chain) = Some 1%float.
Proof.
  intros Hne Hst. unfold raw_amplitudes, chain_ends_stable in *.
  rewrite last_map. destruct (last chain) as [n|] eqn:Hlast;
    [|by apply last_None in Hlast].
  cbn [fmap option_fmap option_map]. rewrite Hst.
  pose proof (amplitudes_length (map (data.decay_const P) chain)
                (data.decay_const P n) true) as Hlen.
  rewrite last_lookup, Hlen. unfold amplitudes in *.
  rewrite length_insert in Hlen.
  apply list_lookup_insert_eq. rewrite Hlen, length_map.
  destruct chain; [done|cbn; lia].
Qed.

(** For a solved chain that ends in a stable nuclide the last amplitude is
    [gamma] itself (the forced [1.0] times [gamma]) and the last rate is
    [-1/half_life] of the terminal nuclide. *)
Theorem k_a_stable_terminal_term (chain : list Z) (x : Z)
    (k a : list float) :
  last chain = Some x →
  (data.decay_const P x <? 1e-16)%float = true →
  k_a P np_sum chain = Ret (Some (k, a)) →
  last k = Some (1 * gamma P chain)%float
  ∧ last a = Some ((-1) / data.half_life P x)%float.
Proof.
  intros Hlast Hst Hsolved.
  assert (Hne : chain ≠ []) by (by intros ->).
  assert (Hends : chain_ends_stable P chain = true)
    by (unfold chain_ends_stable; by rewrite Hlast).
  destruct (k_a_solved_inv _ _ _ _ _ Hne Hsolved) as [-> ->].
  rewrite Hends.
  assert (Hhl : map (data.half_life P) chain ≠ []) by (by destruct chain).
  pose proof (half_life_mask_length np_sum (map (data.half_life P) chain)
                true) as Hmask.
  rewrite length_map in Hmask.
  rewrite !select_last
    by (by rewrite ?Hmask, ?full_k_length, ?full_a_length,
                   ?(half_life_mask_last _ _ Hhl)).
  unfold full_k, full_a.
  by rewrite !last_map, raw_amplitudes_last_stable, Hlast.
Qed.

Lemma select_sublist {A : Type} : ∀ (msk : list bool) (x : list A),
  select msk x `sublist_of` x.
Proof.
  induction msk as [|b msk IH]; intros x; [apply sublist_nil_l|].
  destruct x as [|v x]; [done|]. cbn [select]. destruct b.
  - by apply sublist_skip.
  - by apply sublist_cons.
Qed.

Lemma count_true_le (msk : list bool) : (count_true msk ≤ length msk)%nat.
Proof.
  unfold count_true. induction msk as [|b msk IH]; [done|].
  cbn [List.filter]. destruct b; cbn [id length]; lia.
Qed.

Lemma count_true_all (msk : list bool) :
  count_true msk = length msk → msk = replicate (length msk) true.
Proof.
  unfold count_true. induction msk as [|b msk IH]; [done|].
  cbn [List.filter]. destruct b; cbn [id length replicate]; intros H.
  - f_equal. apply IH. lia.
  - pose proof (count_true_le msk) as Hle. unfold count_true in Hle. lia.
Qed.

Lemma half_life_mask_short (hl : list float) (st : bool) :
  (length hl ≤ 2)%nat →
  half_life_mask np_sum hl st = replicate (length hl) true.
Proof.
  intros Hlen.
  pose proof (half_life_mask_length np_sum hl st) as Hmask.
  unfold half_life_mask in *.
  destruct (_ <? 2)%nat eqn:Hcount; [done|].
  apply Nat.ltb_ge in Hcount. rewrite <- Hmask. apply count_true_all.
  pose proof (count_true_le (half_life_filter np_sum hl st)). lia.
Qed.

(** Pruning only drops terms: the returned arrays are equally long
    subsequences of the unpruned ones, and a chain of one or two nuclides
    is returned unpruned whatever the half-lives are. *)
Theorem k_a_prunes_to_subsequences (chain : list Z) (k a : list float) :
  chain ≠ [] →
  k_a P np_sum chain = Ret (Some (k, a)) →
  k `sublist_of` full_k P chain ∧ a `sublist_of` full_a P chain
  ∧ length k = length a
  ∧ ((length chain ≤ 2)%nat → k = full_k P chain ∧ a = full_a P chain).
Proof.
  intros Hne Hsolved.
  destruct (k_a_solved_inv _ _ _ _ _ Hne Hsolved) as [-> ->].
  pose proof (half_life_mask_length np_sum (map (data.half_life P) chain)
                (chain_ends_stable P chain)) as Hmask.
  rewrite length_map in Hmask.
  split; [apply select_sublist|]. split; [apply select_sublist|]. split.
  - by rewrite !select_length
      by (by rewrite Hmask, ?full_k_length, ?full_a_length).
  - intros Hlen. rewrite half_life_mask_short by (by rewrite length_map).
    rewrite length_map. split.
    + rewrite <- (full_k_length P chain) at 1. apply select_all.
    + rewrite <- (full_a_length P chain) at 1. apply select_all.
Qed.

(** The solver raises only on the empty chain, where reading [dc[-1]]
    fails with [IndexError]. *)
Theorem k_a_raises (chain : list Z) (e : exn) :
  k_a P np_sum chain = Raise e ↔ chain = [] ∧ e = IndexError.
Proof.
  split.
  - intros H. destruct (decide (chain = [])) as [->|Hne].
    + by injection H as <-.
    + rewrite k_a_cascade in H by done.
      repeat (match goal with H : context [if ?b then _ else _] |- _ =>
                destruct b; [discriminate|] end).
      discriminate H.
  - by intros [-> ->].
Qed.

End SolverMore.

(** ** Outcomes of the expression synthesizer *)

(** [chainexpr] raises [IndexError] on the empty chain and
    [ZeroDivisionError] on a single nuclide of half-life zero, and nothing
    else; it returns [None] exactly for a chain of two or more nuclides
    that the solver gives up on. *)
Theorem chainexpr_outcomes (P : provider) (np_sum : list float → float)
    (fmt_e : float → string) (chain : list Z) :
  (∀ e, chainexpr P np_sum fmt_e chain = Raise e ↔
        (chain = [] ∧ e = IndexError)
        ∨ (∃ n, chain = [n] ∧ (data.half_life P n =? 0)%float = true
                ∧ e = ZeroDivisionError))
  ∧ (chainexpr P np_sum fmt_e chain = Ret None ↔
     (2 ≤ length chain)%nat ∧ k_a P np_sum chain = Ret None).
Proof.
  destruct chain as [|n1 [|n2 chain]].
  - split; [intros e|]; split.
    + intros [= <-]. by left.
    + intros [[_ ->]|(n & ? & _)]; done.
    + done.
    + intros [Hlen _]. cbn in Hlen. lia.
  - unfold chainexpr, float_div. cbn [last length Nat.eqb].
    destruct (data.half_life P n1 =? 0)%float eqn:Hhl;
      cbn [mbind py_bind]; (split; [intros e|]; split).
    + intros [= <-]. right. by exists n1.
    + intros [[? _]|(n & [= <-] & _ & ->)]; done.
    + done.
    + intros [Hlen _]. cbn in Hlen. lia.
    + done.
    + intros [[? _]|(n & [= <-] & Hn & _)]; congruence.
    + done.
    + intros [Hlen _]. cbn in Hlen. lia.
  - unfold chainexpr.
    destruct (last (n1 :: n2 :: chain)) as [child|] eqn:Hlast;
      [|by apply last_None in Hlast].
    cbn [length Nat.eqb].
    destruct (k_a P np_sum (n1 :: n2 :: chain)) as [[[k a]|]|e'] eqn:Hk;
      cbn [mbind py_bind].
    + split; [intros e|]; split; try done.
      * intros [[? _]|(n & ? & _)]; done.
      * intros [_ ?]; done.
    + split; [intros e|]; split; try done.
      * intros [[? _]|(n & ? & _)]; done.
      * intros _. split; [cbn; lia|done].
    + apply k_a_raises in Hk as [? _]. done.
Qed.

Lemma diamond_solved :
  k_a diamond sum_left [1; 2; 4]
  = Ret (Some ([0.25; -0.5; 0.25]%float, [-1; -0.5; -0]%float)).
Proof. vm_compute. reflexivity. Qed.

Lemma gamma_snoc_witness :
  gamma diamond ([1; 2] ++ [4])
  = (gamma diamond [1; 2]%Z * branch_ratio diamond 2 4)%float.
Proof. apply (gamma_snoc diamond [1; 2] 2 4). reflexivity. Defined.

Lemma k_a_stable_terminal_term_witness :
  last [0.25; -0.5; 0.25]%float = Some (1 * gamma diamond [1; 2; 4]%Z)%float
  ∧ last [-1; -0.5; -0]%float = Some ((-1) / data.half_life diamond 4)%float.
Proof.
  apply (k_a_stable_terminal_term diamond sum_left [1; 2; 4] 4).
  - reflexivity.
  - vm_compute. reflexivity.
  - exact diamond_solved.
Defined.

Lemma k_a_prunes_to_subsequences_witness :
  [0.25; -0.5; 0.25]%float `sublist_of` full_k diamond [1; 2; 4]
  ∧ [-1; -0.5; -0]%float `sublist_of` full_a diamond [1; 2; 4]
  ∧ length [0.25; -0.5; 0.25]%float = length [-1; -0.5; -0]%float
  ∧ (le (length [1; 2; 4]) 2 →
     [0.25; -0.5; 0.25]%float = full_k diamond [1; 2; 4]
     ∧ [-1; -0.5; -0]%float = full_a diamond [1; 2; 4]).
Proof.
  apply (k_a_prunes_to_subsequences diamond sum_left [1; 2; 4]).
  - discriminate.
  - exact diamond_solved.
Defined.

(** * Dispatch assembler *)

Lemma StronglySorted_le_lt (l : list Z) :
  StronglySorted Z.le l → NoDup l → StronglySorted Z.lt l.
Proof.
  induction 1 as [|x l Hl IH Hx]; intros Hnd; [constructor|].
  apply NoDup_cons in Hnd as [Hx' Hnd]. constructor; [by apply IH|].
  apply Forall_forall. intros y Hy.
  assert (x ≠ y) by (by intros ->).
  pose proof (proj1 (Forall_forall _ _) Hx y Hy). lia.
Qed.

(** [elems] lists the proton numbers of the given nuclides, each once, in
    strictly increasing order. *)
Theorem elems_sorted_distinct (N : nucname.namer) (nucs : list Z) :
  StronglySorted Z.lt (elems N nucs)
  ∧ (∀ z, z ∈ elems N nucs ↔ ∃ n, n ∈ nucs ∧ nucname.znum N n = z).
Proof.
  unfold elems. split.
  - apply StronglySorted_le_lt; [apply StronglySorted_merge_sort; apply _|].
    rewrite merge_sort_Permutation. apply NoDup_elements.
  - intros z. rewrite merge_sort_Permutation, elem_of_elements.
    rewrite elem_of_list_to_set. split.
    + intros Hz. apply list_elem_of_In, in_map_iff in Hz.
      destruct Hz as (n & <- & Hn). exists n. by split; [apply list_elem_of_In|].
    + intros (n & Hn & <-). by apply list_elem_of_In, in_map, list_elem_of_In.
Qed.

Lemma elems_NoDup (N : nucname.namer) (nucs : list Z) :
  NoDup (elems N nucs).
Proof.
  unfold elems. rewrite merge_sort_Permutation. apply NoDup_elements.
Qed.

Lemma index_fold_inv : ∀ (l : list Z) (s : nat) (m : gmap Z nat) n i,
  fold_left (λ idx ni, <[ni.1 := ni.2]> idx) (zip l (seq s (length l))) m
    !! n = Some i →
  (∃ j, i = (s + j)%nat ∧ l !! j = Some n) ∨ m !! n = Some i.
Proof.
  induction l as [|x l IH]; intros s m n i H; [by right|].
  cbn [length seq zip zip_with fold_left fst snd] in H.
  apply IH in H as [(j & -> & Hj)|H].
  - left. exists (S j). split; [lia|done].
  - destruct (decide (x = n)) as [->|Hne].
    + rewrite lookup_insert_eq in H. injection H as <-.
      left. exists O. split; [lia|done].
    + rewrite lookup_insert_ne in H by done. by right.
Qed.

Lemma index_fold_notin : ∀ (l : list Z) (s : nat) (m : gmap Z nat) n,
  n ∉ l →
  fold_left (λ idx ni, <[ni.1 := ni.2]> idx) (zip l (seq s (length l))) m
    !! n = m !! n.
Proof.
  induction l as [|x l IH]; intros s m n Hn; [done|].
  apply not_elem_of_cons in Hn as [Hne Hn].
  cbn [length seq zip zip_with fold_left fst snd].
  rewrite IH by done. by rewrite lookup_insert_ne.
Qed.

Lemma index_fold_NoDup : ∀ (l : list Z) (s : nat) (m : gmap Z nat) n j,
  NoDup l → l !! j = Some n →
  fold_left (λ idx ni, <[ni.1 := ni.2]> idx) (zip l (seq s (length l))) m
    !! n = Some (s + j)%nat.
Proof.
  induction l as [|x l IH]; intros s m n j Hnd Hj; [done|].
  apply NoDup_cons in Hnd as [Hx Hnd].
  cbn [length seq zip zip_with fold_left fst snd]. destruct j as [|j].
  - injection Hj as ->. rewrite index_fold_notin by done.
    rewrite lookup_insert_eq. f_equal. lia.
  - rewrite (IH _ _ _ j) by done. f_equal. lia.
Qed.

Lemma index_fold_dom : ∀ (l : list Z) (s : nat) (m : gmap Z nat) n,
  n ∈ l →
  is_Some (fold_left (λ idx ni, <[ni.1 := ni.2]> idx)
             (zip l (seq s (length l))) m !! n).
Proof.
  induction l as [|x l IH]; intros s m n Hn; [by apply elem_of_nil in Hn|].
  cbn [length seq zip zip_with fold_left fst snd].
  destruct (decide (n ∈ l)) as [Hin|Hnotin]; [by apply IH|].
  rewrite index_fold_notin by done.
  apply elem_of_cons in Hn as [->|Hn]; [|done].
  rewrite lookup_insert_eq. by eexists.
Qed.

(** The slot that [idx] gives a nuclide holds that nuclide in [nucs]; the
    keys of [idx] are the nuclides of [nucs]; and when [nucs] has no
    repeats every nuclide gets its own position. *)
Theorem nuc_index_slots (nucs : list Z) :
  (∀ n i, nuc_index nucs !! n = Some i → nucs !! i = Some n)
  ∧ (∀ n, is_Some (nuc_index nucs !! n) ↔ n ∈ nucs)
  ∧ (NoDup nucs → ∀ n i, nucs !! i = Some n → nuc_index nucs !! n = Some i).
Proof.
  unfold nuc_index. split; [|split].
  - intros n i H. apply index_fold_inv in H as [(j & -> & Hj)|H]; [done|].
    by rewrite lookup_empty in H.
  - intros n. split; [|apply index_fold_dom].
    intros [i H]. apply index_fold_inv in H as [(j & _ & Hj)|H].
    + by apply list_elem_of_lookup_2 in Hj.
    + by rewrite lookup_empty in H.
  - intros Hnd n i Hi. by rewrite (index_fold_NoDup _ _ _ _ i).
Qed.

Lemma nuc_index_slots_witness :
  nuc_index [4; 1; 4; 2] !! 4 = Some 2%nat
  ∧ [4; 1; 4; 2] !! 2%nat = Some 4
  ∧ nuc_index [1; 2; 3; 4] !! 3 = Some 2%nat.
Proof.
  destruct (nuc_index_slots [4; 1; 4; 2]) as (Hslot & _ & _).
  destruct (nuc_index_slots [1; 2; 3; 4]) as (_ & _ & Hpos).
  split; [vm_compute; reflexivity|]. split.
  - apply Hslot. vm_compute. reflexivity.
  - apply Hpos; [|reflexivity].
    compute_done.
Defined.

Section Gencase.
Context (P : provider) (np_sum : list float → float)
        (fmt_e : float → string) (idx : gmap Z nat).

Lemma gencase_loop_raise (l : list (list Z)) (e : exn) :
  fold_left (gencase_loop P np_sum fmt_e idx) l (Raise e) = Raise e.
Proof. induction l as [|c l IH]; [done|exact IH]. Qed.

(** One turn of the loop either raises or appends the statement of the
    chain, if it has one. *)
Lemma gencase_loop_step (case : list string) (c : list Z) :
  (∃ e, gencase_loop P np_sum fmt_e idx (Ret case) c = Raise e
        ∧ ((last c = None ∧ e = IndexError)
           ∨ (∃ t, last c = Some t ∧ is_Some (idx !! t)
                   ∧ chainexpr P np_sum fmt_e c = Raise e)))
  ∨ gencase_loop P np_sum fmt_e idx (Ret case) c
    = Ret (case ++ option_list (case_statement P np_sum fmt_e idx c)).
Proof.
  unfold gencase_loop, case_statement. cbn [mbind py_bind].
  destruct (last c) as [t|] eqn:Hlast; cbn [mbind option_bind];
    [|left; exists IndexError; split; [done|by left]].
  destruct (idx !! t) as [slot|] eqn:Hslot; cbn [mbind option_bind];
    [|right; by rewrite app_nil_r].
  destruct (chainexpr P np_sum fmt_e c) as [[cexpr|]|e] eqn:Hexpr;
    cbn [mbind py_bind option_list].
  - by right.
  - right. by rewrite app_nil_r.
  - left. exists e. split; [done|]. right. exists t. by rewrite Hslot.
Qed.

Lemma gencase_loop_ret : ∀ (chains : list (list Z)) (case case' : list string),
  fold_left (gencase_loop P np_sum fmt_e idx) chains (Ret case) = Ret case' →
  case' = case ++ omap (case_statement P np_sum fmt_e idx) chains.
Proof.
  induction chains as [|c chains IH]; intros case case' H.
  - injection H as <-. by rewrite app_nil_r.
  - cbn [fold_left] in H.
    destruct (gencase_loop_step case c) as [(e & He & _)|Hstep].
    + by rewrite He, gencase_loop_raise in H.
    + rewrite Hstep in H. apply IH in H as ->. rewrite <- app_assoc.
      f_equal. cbn [omap list_omap].
      by destruct (case_statement P np_sum fmt_e idx c).
Qed.

Lemma gencase_loop_raises : ∀ (chains : list (list Z)) (case : list string) e,
  fold_left (gencase_loop P np_sum fmt_e idx) chains (Ret case) = Raise e →
  ∃ c, c ∈ chains
       ∧ ((last c = None ∧ e = IndexError)
          ∨ (∃ t, last c = Some t ∧ is_Some (idx !! t)
                  ∧ chainexpr P np_sum fmt_e c = Raise e)).
Proof.
  induction chains as [|c chains IH]; intros case e H; [done|].
  cbn [fold_left] in H.
  destruct (gencase_loop_step case c) as [(e' & He & Hwhy)|Hstep].
  - rewrite He, gencase_loop_raise in H. injection H as <-.
    exists c. split; [by left|done].
  - rewrite Hstep in H. apply IH in H as (c' & Hc' & Hwhy).
    exists c'. split; [by right|done].
Qed.

(** The case that [gencase] returns: for a stable nuclide the pass-through
    statement between the [case] line and the [break]; for a nuclide that
    decays, one statement for each enumerated chain whose terminal nuclide
    has a slot and whose expression exists, in the order of the
    enumeration. *)
Theorem gencase_case_shape (depth : nat) (nuc : Z) (printed lines : list string) :
  gencase P np_sum fmt_e depth nuc idx = (printed, Returns lines) →
  ((data.decay_const P nuc =? 0)%float = true ∧ printed = []
   ∧ ∃ slot, idx !! nuc = Some slot
       ∧ lines = ["case " +:+ pretty nuc +:+ ":";
                  CHAIN_STMT (pretty slot) "it->second"; BREAK])
  ∨ ((data.decay_const P nuc =? 0)%float = false
     ∧ ∃ chains, genchains P depth [[nuc]] = Ret chains
         ∧ printed = [gencase_print chains nuc]
         ∧ lines = ["case " +:+ pretty nuc +:+ ":"]
                   ++ omap (case_statement P np_sum fmt_e idx) chains
                   ++ [BREAK]).
Proof.
  unfold gencase. destruct (data.decay_const P nuc =? 0)%float.
  - destruct (idx !! nuc) as [slot|]; [|done]. intros [= <- <-].
    left. split; [done|]. split; [done|]. by exists slot.
  - destruct (genchains P depth [[nuc]]) as [chains|e]; [|done].
    destruct (fold_left _ chains _) as [case|e] eqn:Hloop; [|done].
    intros [= <- <-]. right. split; [done|]. exists chains.
    split; [done|]. split; [done|].
    apply gencase_loop_ret in Hloop as ->. by rewrite <- app_assoc.
Qed.

Lemma seed_out_nonempty (depth : nat) (seed : Z) (c : list Z) :
  c ∈ [seed] :: map (cons seed) (extensions P depth seed) →
  c = [seed] ∨ (2 ≤ length c)%nat.
Proof.
  intros Hc. apply elem_of_seed_out in Hc as (p & -> & [->|Hp]); [by left|].
  right. apply extensions_path in Hp as [Hne _].
  destruct p; [done|cbn; lia].
Qed.

(** What [gencase] raises: [KeyError] for a stable nuclide without a slot;
    [RecursionError] when the enumeration of a decaying nuclide runs out
    of stack; [ZeroDivisionError] for a decaying nuclide with a slot and a
    zero half-life; and nothing else, in particular no [IndexError]. *)
Theorem gencase_raises (depth : nat) (nuc : Z) (e : dispatch_exn) :
  (gencase P np_sum fmt_e depth nuc idx).2 = Raises e ↔
    (e = KeyError ∧ (data.decay_const P nuc =? 0)%float = true
     ∧ idx !! nuc = None)
    ∨ (e = SolverError RecursionError
       ∧ (data.decay_const P nuc =? 0)%float = false
       ∧ genchains P depth [[nuc]] = Raise RecursionError)
    ∨ (e = SolverError ZeroDivisionError
       ∧ (data.decay_const P nuc =? 0)%float = false
       ∧ (∃ chains, genchains P depth [[nuc]] = Ret chains)
       ∧ is_Some (idx !! nuc)
       ∧ (data.half_life P nuc =? 0)%float = true).
Proof.
  unfold gencase. destruct (data.decay_const P nuc =? 0)%float.
  { destruct (idx !! nuc) as [slot|]; cbn [snd]; split.
    - done.
    - intros [(_ & _ & ?)|[(_ & ? & _)|(_ & ? & _)]]; done.
    - intros [= <-]. by left.
    - intros [(-> & _)|[(_ & ? & _)|(_ & ? & _)]]; done. }
  destruct (genchains P depth [[nuc]]) as [chains|e'] eqn:Hgen; cbn [snd].
  2:{ assert (e' = RecursionError) as ->.
      { apply genchains_raises in Hgen
          as [(_ & _ & [?|?])|(-> & _)]; done. }
      split.
      - intros [= <-]. right. left. done.
      - intros [(_ & ? & _)|[(-> & _)|(_ & _ & (? & ?) & _)]]; done. }
  pose proof Hgen as Hinv. apply genchains_seed_inv in Hinv as [_ Hout].
  destruct (fold_left _ chains _) as [case|e'] eqn:Hloop.
  { split; [done|].
    intros [(_ & ? & _)|[(_ & _ & ?)|(_ & _ & _ & [slot Hslot] & Hhl)]];
      try done.
    exfalso. rewrite Hout in Hloop. cbn [fold_left] in Hloop.
    unfold gencase_loop at 2 in Hloop. cbn [mbind py_bind last] in Hloop.
    rewrite Hslot in Hloop. unfold chainexpr, float_div in Hloop.
    cbn [last length Nat.eqb] in Hloop. rewrite Hhl in Hloop.
    cbn [mbind py_bind] in Hloop. by rewrite gencase_loop_raise in Hloop. }
  apply gencase_loop_raises in Hloop as (c & Hc & Hwhy).
  rewrite Hout in Hc.
  assert (c = [nuc] ∧ e' = ZeroDivisionError
          ∧ is_Some (idx !! nuc)
          ∧ (data.half_life P nuc =? 0)%float = true) as (-> & -> & Hs & Hhl).
  { destruct Hwhy as [[Hlast _]|(t & Hlast & Hslot & Hexpr)].
    - apply last_None in Hlast as ->.
      apply seed_out_nonempty in Hc as [?|Hlen]; [done|cbn in Hlen; lia].
    - apply (chainexpr_outcomes P np_sum fmt_e c) in Hexpr
        as [[-> _]|(n & -> & Hn & ->)]; [done|].
      injection Hlast as ->.
      apply seed_out_nonempty in Hc as [[= ->]|Hlen];
        [done|cbn in Hlen; lia]. }
  split.
  - intros [= <-]. right. right. repeat split; [|done..]. by exists chains.
  - intros [(_ & ? & _)|[(_ & _ & ?)|(-> & _)]]; done.
Qed.

End Gencase.

Lemma gencase_case_shape_witness :
  (PrimFloat.eqb (data.decay_const diamond 3) 0 = false
   ∧ ∃ chains, genchains diamond 9 [[3]] = Ret chains
       ∧ ["2 2 3"] = [gencase_print chains 3]
       ∧ ["case 3:";
          "  out[0] += (it->second) * (<float>*exp2(<float>*t) + <float>*exp2(<float>*t));";
          "  break;"]
         = ["case " +:+ pretty 3 +:+ ":"]
           ++ omap (case_statement diamond sum_left fmt_e_sample
                      (nuc_index [4])) chains
           ++ [BREAK]).
Proof.
  destruct (gencase_case_shape diamond sum_left fmt_e_sample (nuc_index [4])
              9 3 ["2 2 3"]
              ["case 3:";
               "  out[0] += (it->second) * (<float>*exp2(<float>*t) + <float>*exp2(<float>*t));";
               "  break;"])
    as [(Hstable & _)|Hdecays].
  - vm_compute. reflexivity.
  - vm_compute in Hstable. discriminate Hstable.
  - exact Hdecays.
Defined.

(** ** Grouping the cases by element *)

Section Genelemfuncs.
Context (N : nucname.namer) (P : provider) (np_sum : list float → float)
        (fmt_e : float → string) (depth : nat) (idx : gmap Z nat).

Lemma cases_extend_spec (z : Z) (lines : list string) :
  ∀ cases : list (Z * list string),
    z ∈ map fst cases → NoDup (map fst cases) →
    cases_extend z lines cases =
      Returns (map (λ kv, if decide (kv.1 = z) then (kv.1, kv.2 ++ lines)
                          else kv) cases).
Proof.
  induction cases as [|[k v] cases IH]; intros Hz Hnd;
    [by apply elem_of_nil in Hz|].
  cbn [map fst] in *. apply NoDup_cons in Hnd as [Hk Hnd].
  cbn [cases_extend fst snd]. destruct (decide (k = z)) as [->|Hne].
  - do 2 f_equal. clear IH Hz. induction cases as [|[k' v'] cases IH]; [done|].
    cbn [map fst snd] in *. apply not_elem_of_cons in Hk as [Hne Hk].
    apply NoDup_cons in Hnd as [_ Hnd].
    destruct (decide (k' = z)) as [->|_]; [done|]. f_equal. by apply IH.
  - apply elem_of_cons in Hz as [->|Hz]; [done|]. by rewrite IH.
Qed.

Lemma genelemfuncs_loop_raise (todo : list Z) (printed : list string)
    (e : dispatch_exn) :
  fold_left (genelemfuncs_loop N P np_sum fmt_e depth idx) todo
            (printed, Raises e) = (printed, Raises e).
Proof. induction todo as [|n todo IH]; [done|exact IH]. Qed.

Lemma genelemfuncs_loop_closed : ∀ (todo : list Z) (printed : list string)
    (cases : list (Z * list string)),
  NoDup (map fst cases) →
  (∀ n, n ∈ todo → nucname.znum N n ∈ map fst cases) →
  (∀ n, n ∈ todo →
     ∃ l, (gencase P np_sum fmt_e depth n idx).2 = Returns l) →
  fold_left (genelemfuncs_loop N P np_sum fmt_e depth idx) todo
            (printed, Returns cases) =
    (printed
     ++ concat (map (case_printed P np_sum fmt_e depth idx) todo),
     Returns
       (map (λ kv,
               (kv.1,
                kv.2 ++ concat
                          (map (case_lines P np_sum fmt_e depth idx)
                               (filter (λ n, nucname.znum N n = kv.1)
                                       todo))))
            cases)).
Proof.
  induction todo as [|n todo IH]; intros printed cases Hnd Hkeys Hret.
  - cbn. rewrite app_nil_r. do 2 f_equal. rewrite <- (map_id cases) at 1.
    apply map_ext. intros [k v]. cbn. by rewrite app_nil_r.
  - cbn [fold_left map concat]. unfold genelemfuncs_loop at 2.
    unfold cases_has. rewrite bool_decide_eq_true_2 by (apply Hkeys; by left).
    destruct (Hret n ltac:(by left)) as [l Hl].
    unfold case_printed at 1.
    destruct (gencase P np_sum fmt_e depth n idx) as [pn r] eqn:Hcase.
    cbn [snd fst] in *. subst r.
    rewrite cases_extend_spec by (done || (apply Hkeys; by left)).
    rewrite IH.
    + rewrite <- app_assoc. do 2 f_equal. rewrite map_map.
      apply map_ext. intros [k v]. cbn [fst snd].
      destruct (decide (k = nucname.znum N n)) as [->|Hne]; cbn [fst snd].
      * rewrite filter_cons_True by done. cbn [map concat].
        unfold case_lines at 2. rewrite Hcase. cbn [snd].
        by rewrite <- app_assoc.
      * by rewrite filter_cons_False by done.
    + rewrite map_map. erewrite map_ext; [exact Hnd|].
      intros [k v]. cbn. by destruct (decide _).
    + intros n' Hn'. rewrite map_map.
      erewrite map_ext; [apply Hkeys; by right|].
      intros [k v]. cbn. by destruct (decide _).
    + intros n' Hn'. apply Hret. by right.
Qed.

Lemma genelemfuncs_loop_raises : ∀ (todo : list Z) (printed printed' : list string)
    (cases : list (Z * list string)) (e : dispatch_exn),
  NoDup (map fst cases) →
  (∀ n, n ∈ todo → nucname.znum N n ∈ map fst cases) →
  fold_left (genelemfuncs_loop N P np_sum fmt_e depth idx) todo
            (printed, Returns cases) = (printed', Raises e) →
  ∃ n, n ∈ todo ∧ (gencase P np_sum fmt_e depth n idx).2 = Raises e.
Proof.
  induction todo as [|n todo IH]; intros printed printed' cases e Hnd Hkeys H;
    [done|].
  cbn [fold_left] in H. unfold genelemfuncs_loop at 2 in H.
  unfold cases_has in H.
  rewrite bool_decide_eq_true_2 in H by (apply Hkeys; by left).
  destruct (gencase P np_sum fmt_e depth n idx) as [pn [l|e']] eqn:Hcase.
  - rewrite cases_extend_spec in H by (done || (apply Hkeys; by left)).
    apply IH in H as (n' & Hn' & Hraise).
    + exists n'. split; [by right|done].
    + rewrite map_map. erewrite map_ext; [exact Hnd|].
      intros [k v]. cbn. by destruct (decide _).
    + intros n' Hn'. rewrite map_map.
      erewrite map_ext; [apply Hkeys; by right|].
      intros [k v]. cbn. by destruct (decide _).
  - rewrite genelemfuncs_loop_raise in H. injection H as _ <-.
    exists n. split; [by left|]. by rewrite Hcase.
Qed.

End Genelemfuncs.

Lemma elems_keys (N : nucname.namer) (nucs : list Z) :
  map fst (map (λ i, (i, @nil string)) (elems N nucs)) = elems N nucs.
Proof. rewrite map_map. apply map_id. Qed.

(** When every nuclide has a case, [genelemfuncs] renders one function
    per element, in increasing order of the proton number, whose cases are
    those of the element's nuclides in the order of [nucs], and the
    functions are joined by an empty line; it prints what the calls of
    [gencase] print, in the order of [nucs]. *)
Theorem genelemfuncs_groups_by_element (N : nucname.namer)
    (render : list Z → string → string → string) (P : provider)
    (np_sum : list float → float) (fmt_e : float → string) (depth : nat)
    (nucs : list Z) :
  (∀ n, n ∈ nucs →
     ∃ l, (gencase P np_sum fmt_e depth n (nuc_index nucs)).2 = Returns l) →
  genelemfuncs N render P np_sum fmt_e depth nucs =
    (concat (map (case_printed P np_sum fmt_e depth (nuc_index nucs)) nucs),
     Returns
       (str_join (newline +:+ newline)
          (map (λ z,
                  render nucs (nucname.name N z)
                    (str_join newline
                       (concat
                          (map (case_lines P np_sum fmt_e depth
                                  (nuc_index nucs))
                               (filter (λ n, nucname.znum N n = z) nucs)))))
               (elems N nucs)))).
Proof.
  intros Hret. unfold genelemfuncs.
  rewrite genelemfuncs_loop_closed.
  - cbn [app]. do 3 f_equal. rewrite !map_map. by apply map_ext.
  - rewrite elems_keys. apply elems_NoDup.
  - intros n Hn. rewrite elems_keys.
    apply elems_sorted_distinct. by exists n.
  - done.
Qed.

(** [genelemfuncs] raises only what a call of [gencase] on one of its
    nuclides raises, and that is [RecursionError] or [ZeroDivisionError]:
    no dict is read with a missing key and no chain is empty. *)
Theorem genelemfuncs_raises (N : nucname.namer)
    (render : list Z → string → string → string) (P : provider)
    (np_sum : list float → float) (fmt_e : float → string) (depth : nat)
    (nucs : list Z) (e : dispatch_exn) :
  (genelemfuncs N render P np_sum fmt_e depth nucs).2 = Raises e →
  (e = SolverError RecursionError ∨ e = SolverError ZeroDivisionError)
  ∧ ∃ n, n ∈ nucs
         ∧ (gencase P np_sum fmt_e depth n (nuc_index nucs)).2 = Raises e.
Proof.
  unfold genelemfuncs.
  destruct (fold_left _ nucs _) as [printed [cases|e']] eqn:Hloop; [done|].
  cbn [snd]. intros [= ->].
  apply genelemfuncs_loop_raises in Hloop as (n & Hn & Hraise).
  - split; [|by exists n].
    apply gencase_raises in Hraise
      as [(_ & _ & Hnone)|[(-> & _)|(-> & _)]]; [|by left|by right].
    apply nuc_index_slots in Hn as [slot Hslot]. congruence.
  - rewrite elems_keys. apply elems_NoDup.
  - intros n Hn. rewrite elems_keys.
    apply elems_sorted_distinct. by exists n.
Qed.

Lemma diamond_cases_return (n : Z) :
  n ∈ [1; 2; 3; 4] →
  ∃ l, (gencase diamond sum_left fmt_e_sample 9 n
          (nuc_index [1; 2; 3; 4])).2 = Returns l.
Proof.
  intros Hn. repeat (apply elem_of_cons in Hn as [->|Hn]);
    [eexists; vm_compute; reflexivity..|by apply elem_of_nil in Hn].
Qed.

Lemma genelemfuncs_groups_by_element_witness :
  genelemfuncs sample_namer sample_render diamond sum_left fmt_e_sample 9
    [1; 2; 3; 4] =
    (concat (map (case_printed diamond sum_left fmt_e_sample 9
                    (nuc_index [1; 2; 3; 4])) [1; 2; 3; 4]),
     Returns
       (str_join (newline +:+ newline)
          (map (λ z,
                  sample_render [1; 2; 3; 4] (nucname.name sample_namer z)
                    (str_join newline
                       (concat
                          (map (case_lines diamond sum_left fmt_e_sample 9
                                  (nuc_index [1; 2; 3; 4]))
                               (filter (λ n, nucname.znum sample_namer n = z)
                                       [1; 2; 3; 4])))))
               (elems sample_namer [1; 2; 3; 4])))).
Proof.
  apply (genelemfuncs_groups_by_element sample_namer sample_render diamond
           sum_left fmt_e_sample 9 [1; 2; 3; 4]).
  exact diamond_cases_return.
Defined.

Lemma genelemfuncs_raises_witness :
  (SolverError RecursionError = SolverError RecursionError
   ∨ SolverError RecursionError = SolverError ZeroDivisionError)
  ∧ ∃ n, n ∈ [4; 1]
         ∧ (gencase diamond sum_left fmt_e_sample 2 n (nuc_index [4; 1])).2
           = Raises (SolverError RecursionError).
Proof.
  apply (genelemfuncs_raises sample_namer sample_render diamond sum_left
           fmt_e_sample 2 [4; 1]).
  vm_compute. reflexivity.
Defined.

(** ** Slots and override tables *)

Lemma case_statement_inv (P : provider) (np_sum : list float → float)
    (fmt_e : float → string) (idx : gmap Z nat) (c : list Z) (stmt : string) :
  case_statement P np_sum fmt_e idx c = Some stmt →
  ∃ terminal slot cexpr,
    last c = Some terminal ∧ idx !! terminal = Some slot
    ∧ chainexpr P np_sum fmt_e c = Ret (Some cexpr)
    ∧ stmt = CHAIN_STMT (pretty slot) cexpr.
Proof.
  unfold case_statement. intros H.
  destruct (last c) as [terminal|]; [|done]. cbn [mbind option_bind] in H.
  destruct (idx !! terminal) as [slot|] eqn:Hslot; [|done].
  cbn [mbind option_bind] in H.
  destruct (chainexpr P np_sum fmt_e c) as [[cexpr|]|] eqn:Hexpr; [|done..].
  injection H as <-. by exists terminal, slot, cexpr.
Qed.

(** With the index of [genelemfuncs], every statement of a returned case
    adds to a slot inside the array [out], and the slot is the one that
    the index gives the terminal nuclide of the chain the statement comes
    from. For a stable nuclide that chain is the nuclide alone and the
    statement passes the amount through; for a nuclide that decays the
    chain is one of the chains that [genchains] enumerates from the
    nuclide, and the statement carries the expression that [chainexpr]
    builds for it. *)
Theorem gencase_slots_in_bounds (P : provider) (np_sum : list float → float)
    (fmt_e : float → string) (depth : nat) (nucs : list Z) (nuc : Z)
    (printed lines : list string) :
  gencase P np_sum fmt_e depth nuc (nuc_index nucs) = (printed, Returns lines) →
  ∃ stmts,
    lines = ["case " +:+ pretty nuc +:+ ":"] ++ stmts ++ [BREAK]
    ∧ ∀ stmt, stmt ∈ stmts →
        ∃ (slot : nat) (expr : string) (c : list Z) (terminal : Z),
          stmt = CHAIN_STMT (pretty slot) expr
          ∧ (slot < length nucs)%nat
          ∧ last c = Some terminal
          ∧ nuc_index nucs !! terminal = Some slot
          ∧ nucs !! slot = Some terminal
          ∧ (((data.decay_const P nuc =? 0)%float = true
              ∧ c = [nuc] ∧ expr = "it->second")
             ∨ ((data.decay_const P nuc =? 0)%float = false
                ∧ (∃ chains, genchains P depth [[nuc]] = Ret chains
                             ∧ c ∈ chains)
                ∧ head c = Some nuc
                ∧ chainexpr P np_sum fmt_e c = Ret (Some expr))).
Proof.
  intros H. apply gencase_case_shape in H
    as [(Hdc & _ & slot & Hslot & ->)|(Hdc & chains & Hgen & _ & ->)].
  - exists [CHAIN_STMT (pretty slot) "it->second"]. split; [done|].
    intros stmt Hstmt. apply list_elem_of_singleton in Hstmt as ->.
    pose proof Hslot as Hpos. apply nuc_index_slots in Hpos.
    exists slot, "it->second", [nuc], nuc. split; [done|].
    split; [by apply lookup_lt_Some in Hpos|].
    do 3 (split; [done|]). by left.
  - exists (omap (case_statement P np_sum fmt_e (nuc_index nucs)) chains).
    split; [done|]. intros stmt Hstmt.
    apply list_elem_of_omap in Hstmt as (c & Hc & Hstmt).
    apply case_statement_inv in Hstmt
      as (terminal & slot & cexpr & Hlast & Hslot & Hexpr & ->).
    pose proof Hslot as Hpos. apply nuc_index_slots in Hpos.
    exists slot, cexpr, c, terminal. split; [done|].
    split; [by apply lookup_lt_Some in Hpos|].
    do 3 (split; [done|]). right. split; [done|].
    split; [by exists chains|]. split; [|done].
    by apply (genchains_chains_are_decay_paths P depth nuc chains).
Qed.

Lemma gencase_slots_in_bounds_witness :
  ∃ stmts,
    ["case 3:"; "  out[2] += (it->second) * (exp2(<float>*t));";
     "  out[3] += (it->second) * (<float>*exp2(<float>*t) + <float>*exp2(<float>*t));";
     "  break;"]
    = ["case " +:+ pretty 3 +:+ ":"] ++ stmts ++ [BREAK]
    ∧ ∀ stmt, stmt ∈ stmts →
        ∃ (slot : nat) (expr : string) (c : list Z) (terminal : Z),
          stmt = CHAIN_STMT (pretty slot) expr
          ∧ (slot < length [1; 2; 3; 4])%nat
          ∧ last c = Some terminal
          ∧ nuc_index [1; 2; 3; 4] !! terminal = Some slot
          ∧ [1; 2; 3; 4] !! slot = Some terminal
          ∧ ((PrimFloat.eqb (data.decay_const diamond 3) 0 = true
              ∧ c = [3] ∧ expr = "it->second")
             ∨ (PrimFloat.eqb (data.decay_const diamond 3) 0 = false
                ∧ (∃ chains, genchains diamond 9 [[3]] = Ret chains
                             ∧ c ∈ chains)
                ∧ head c = Some 3
                ∧ chainexpr diamond sum_left fmt_e_sample c
                  = Ret (Some expr))).
Proof.
  apply (gencase_slots_in_bounds diamond sum_left fmt_e_sample 9
           [1; 2; 3; 4] 3 ["2 2 3"]).
  vm_compute. reflexivity.
Defined.

(** The two override tables agree: every corrected decay child of a
    parent has a corrected branch ratio from that parent, and the
    corrected branch ratios of a parent's children add up to one, whatever
    the provider holds. *)
Theorem override_tables_agree (P : provider) (x : Z) (s : gset Z) :
  decay_children_special_cases !! x = Some s →
  (∀ c, c ∈ s → is_Some (branch_ratio_special_cases !! (x, c)))
  ∧ sum_left (map (branch_ratio P x) (elements s)) = 1%float.
Proof.
  intros Hs.
  destruct (decide (x = 451040000)) as [->|H1].
  { replace (decay_children_special_cases !! 451040000)
      with (Some ({[ 441040000; 461040000 ]} : gset Z)) in Hs
      by (vm_compute; reflexivity).
    injection Hs as <-. split.
    - intros c Hc.
      apply elem_of_union in Hc as [Hc|Hc]; apply elem_of_singleton in Hc as ->;
        eexists; vm_compute; reflexivity.
    - vm_compute. reflexivity. }
  destruct (decide (x = 521270000)) as [->|H2].
  { replace (decay_children_special_cases !! 521270000)
      with (Some ({[ 531270000 ]} : gset Z)) in Hs
      by (vm_compute; reflexivity).
    injection Hs as <-. split.
    - intros c Hc. apply elem_of_singleton in Hc as ->.
      eexists; vm_compute; reflexivity.
    - vm_compute. reflexivity. }
  by rewrite two_species_special_cases_none in Hs.
Qed.

Lemma override_tables_agree_witness :
  (∀ c, c ∈ ({[ 441040000; 461040000 ]} : gset Z) →
        is_Some (branch_ratio_special_cases !! (451040000, c)))
  ∧ sum_left (map (branch_ratio isomer_pair 451040000)
                  (elements ({[ 441040000; 461040000 ]} : gset Z)))
    = 1%float.
Proof.
  apply (override_tables_agree isomer_pair 451040000).
  vm_compute. reflexivity.
Defined.

(** ** The order of the enumerated chains *)

Lemma app_cons_split {T : Type} : ∀ (A B l1 : list T) (q : T) (l2 : list T),
  A ++ B = l1 ++ q :: l2 →
  (∃ k, A = l1 ++ q :: k ∧ l2 = k ++ B)
  ∨ (∃ k, l1 = A ++ k ∧ B = k ++ q :: l2).
Proof.
  induction A as [|a A IH]; intros B l1 q l2 H.
  - right. by exists l1.
  - destruct l1 as [|b l1].
    + injection H as -> <-. left. by exists A.
    + injection H as -> H. apply IH in H as [(k & -> & ->)|(k & -> & ->)].
      * left. by exists k.
      * right. by exists k.
Qed.

Lemma parents_first_app (A B : list (list Z)) :
  parents_first A → parents_first B → parents_first (A ++ B).
Proof.
  intros HA HB l1 c y l2 H Hc.
  apply app_cons_split in H as [(k & -> & ->)|(k & -> & ->)].
  - by apply (HA l1 c y k).
  - apply elem_of_app. right. by apply (HB k c y l2).
Qed.

Lemma parents_first_block (c : Z) (E : list (list Z)) :
  parents_first E → parents_first ([c] :: map (cons c) E).
Proof.
  intros HE l1 p y l2 H Hp. destruct l1 as [|q l1].
  - injection H as H _. by destruct p as [|? [|? ?]].
  - injection H as <- H. change (map (cons c) E) with (cons c <$> E) in H.
    apply fmap_app_inv in H as (e1 & e2' & -> & H & ->). symmetry in H.
    apply fmap_cons_inv in H as (q & e2 & Hq & -> & ->).
    destruct p as [|c' p]; [done|]. injection Hq as -> <-.
    destruct p as [|c'' p]; [by left|]. right.
    apply list_elem_of_fmap. exists (c'' :: p). split; [done|].
    by apply (HE e1 (c'' :: p) y e2).
Qed.

Lemma parents_first_flat_map (f : Z → list (list Z)) : ∀ l : list Z,
  (∀ c, parents_first (f c)) → parents_first (flat_map f l).
Proof.
  induction l as [|c l IH]; intros Hf.
  - intros l1 p y l2 H. by destruct l1.
  - cbn [flat_map]. apply parents_first_app; [apply Hf|by apply IH].
Qed.

Lemma parents_first_extensions (P : provider) (n : nat) : ∀ x,
  parents_first (extensions P n x).
Proof.
  induction n as [|n IH]; intros x.
  - intros l1 p y l2 H. by destruct l1.
  - cbn [extensions]. apply parents_first_flat_map. intros c.
    apply parents_first_block, IH.
Qed.

(** The chains come out parents first: a chain of two or more nuclides
    stands in the output after the chain that it extends by one nuclide, so
    the seed chain is the first one. *)
Theorem genchains_parents_first (P : provider) (depth : nat) (seed : Z)
    (out : list (list Z)) :
  genchains P depth [[seed]] = Ret out →
  head out = Some [seed] ∧ parents_first out.
Proof.
  intros H. apply genchains_seed_inv in H as [_ ->]. split; [done|].
  apply parents_first_block, parents_first_extensions.
Qed.

Lemma genchains_parents_first_witness :
  head [[1]; [1; 3]; [1; 3; 4]; [1; 2]; [1; 2; 4]] = Some [1]
  ∧ parents_first [[1]; [1; 3]; [1; 3; 4]; [1; 2]; [1; 2; 4]].
Proof.
  exact (genchains_parents_first diamond 5 1 _ diamond_chains).
Defined.

(** * The two-nuclide chain, algebraically *)

(** At the binary64 operations the generic solver is [k_a]. *)
Lemma generic_k_a_binary64 (P : provider) (np_sum : list float → float)
    (chain : list Z) :
  generic.k_a binary64 (solver_data P) np_sum chain = k_a P np_sum chain.
Proof. reflexivity. Qed.

Lemma render_chain_term (fmt_e : float → string) (k a : float) :
  render fmt_e (generic.chain_term binary64 k a) = chain_term fmt_e k a.
Proof.
  unfold generic.chain_term, generic.kexpexpr, chain_term, kexpexpr.
  cbn [generic.eq generic.lit1 generic.lit0 binary64].
  destruct (k =? 1)%float, (a =? 0)%float; reflexivity.
Qed.

Lemma map_zip_with {A B C D : Type} (f : A → B → C) (g : C → D) :
  ∀ (l : list A) (k : list B),
    map g (zip_with f l k) = zip_with (λ x y, g (f x y)) l k.
Proof.
  induction l as [|x l IH]; intros [|y k]; [done..|]. cbn. by rewrite IH.
Qed.

(** At the binary64 operations the generic synthesizer yields the terms
    that [chainexpr] formats and joins. *)
Lemma chainexpr_renders_chain_terms (P : provider)
    (np_sum : list float → float) (fmt_e : float → string)
    (chain : list Z) :
  chainexpr P np_sum fmt_e chain =
    match generic.chain_terms binary64 (solver_data P) np_sum chain with
    | Ret (Some terms) =>
      Ret (Some (CHAIN_EXPR (str_join " + " (map (render fmt_e) terms))))
    | Ret None => Ret None
    | Raise e => Raise e
    end.
Proof.
  unfold chainexpr, generic.chain_terms. rewrite generic_k_a_binary64.
  destruct (last chain) as [child|]; [|done].
  destruct (length chain =? 1)%nat.
  - unfold float_div, generic.float_div.
    cbn [generic.eq generic.lit0 generic.over generic.neg generic.lit1
         generic.half_life binary64 solver_data].
    by destruct (data.half_life P child =? 0)%float.
  - destruct (k_a P np_sum chain) as [[[k a]|]|e]; cbn [mbind py_bind];
      [|done..].
    rewrite map_zip_with. do 4 f_equal.
    clear. revert a. induction k as [|k_i k IH]; intros [|a_i a]; [done..|].
    cbn [zip_with]. by rewrite render_chain_term, IH.
Qed.











